(** * itis::HashTable: a separate-chaining hash table from int keys to strings

    A shallow embedding of [src/hash_table.cpp] and the proofs of the
    properties its specification states.

    Modelling choices.
    - [int] keys, the [int] counter [num_keys_] and [size_t] bucket counts
      are integers of [Z] (bucket counts are list lengths).  The counter of
      the model is the number of increments [Put] has made; the [int] of
      the source holds that number as long as it does not pass [INT_MAX],
      and the theorems that conclude on the value of [size()] after an
      increment, or compare it with a number of pairs, say so in a
      hypothesis.  The casts of a bucket count to [int] are the identity
      below 2^31 buckets.
    - [double] is IEEE 754 binary64, taken from the Standard Library's
      [spec_float] with its correctly rounded division and its comparisons
      (every comparison with a NaN is false).
    - [std::optional<std::string>] is [optional string].
    - [std::vector<Bucket>] is [list Bucket], [Bucket] (a [std::list] of
      pairs) is [list (Z * string)].  Indexing a vector outside its bounds
      is undefined behaviour in the source: the operations return in
      [option], and [None] stands for such an access.
    - [hash_table.hpp] is not part of the sources at hand: [utils::hash] and
      [kGrowthCoefficient] are parameters of the development. *)

From Stdlib Require Import ZArith Lia.
From Stdlib Require Import Floats.SpecFloat.
From stdpp Require Import base option list gmap strings relations.

Local Open Scope Z_scope.

(** ** IEEE 754 binary64 *)

Module Double.

Definition prec : Z := 53.
Definition emax : Z := 1024.

Definition double : Type := spec_float.

(** [static_cast<double>(n)] for an integer [n] (rounded to nearest even,
    exact below 2^53). *)
Definition of_Z (n : Z) : double := binary_normalize prec emax n 0 false.

Definition zero : double := S754_zero false.
Definition one : double := of_Z 1.

Definition div (x y : double) : double := SFdiv prec emax x y.

(** The comparison operators of C++ on doubles. *)
Definition le (x y : double) : bool := SFleb x y.
Definition lt (x y : double) : bool := SFltb x y.
Definition ge (x y : double) : bool := SFleb y x.
Definition gt (x y : double) : bool := SFltb y x.

Definition is_nan (x : double) : bool :=
  match x with S754_nan => true | _ => false end.

End Double.

Abbreviation double := Double.double.

(** ** Data *)

Inductive optional (A : Type) : Type :=
| nullopt : optional A
| has_value (a : A) : optional A.
Arguments nullopt {A}.
Arguments has_value {A} a.

(** [using Bucket = std::list<std::pair<int, std::string>>] *)
Abbreviation Bucket := (list (Z * string)).

Record HashTable : Type := mkHashTable {
  num_keys_ : Z;
  load_factor_ : double;
  buckets_ : list Bucket
}.

(** The bounds of [int].  [num_keys_] of a table of the model equals the
    [int] of the source as long as no [num_keys_++] has been made at
    [INT_MAX]: the counter never decreases, so that is as long as it is at
    most [INT_MAX]. *)
Definition INT_MAX : Z := 2147483647.
Definition INT_MIN : Z := -2147483648.

(** [0 < x && x <= 1]: [x] is in (0, 1]. *)
Definition in_unit_interval (x : double) : bool :=
  Double.gt x Double.zero && Double.le x Double.one.

(** [std::logic_error], with its message. *)
Inductive exception : Type :=
| logic_error (what : string).

(** [v[i]] on a [std::vector]: defined for [0 <= i < v.size()] only. *)
Definition at_index {A : Type} (v : list A) (i : Z) : option A :=
  if 0 <=? i then v !! Z.to_nat i else None.

(** The first pair of a bucket whose key is [key]: the linear scan
    [for (pair : bucket) if (pair.first == key) ...] that [Search] and
    [Remove] both run. *)
Fixpoint find_pair (key : Z) (bucket : Bucket) : option (Z * string) :=
  match bucket with
  | [] => None
  | kv :: rest => if kv.1 =? key then Some kv else find_pair key rest
  end.

(** The scan of [Put]: the first pair whose key is [key] gets [value]
    ([pair.second = value; return;]); [None] when the loop runs to its end. *)
Fixpoint assign (key : Z) (value : string) (bucket : Bucket) : option Bucket :=
  match bucket with
  | [] => None
  | kv :: rest =>
      if kv.1 =? key then Some ((kv.1, value) :: rest)
      else cons kv <$> assign key value rest
  end.

(** [std::list::remove(value)]: erases every element equal to [value]. *)
Definition list_remove (value : Z * string) (bucket : Bucket) : Bucket :=
  filter (λ p, p ≠ value) bucket.

(** [v[i].push_back(x)] *)
Definition push_back_at (v : list Bucket) (i : Z) (x : Z * string)
  : option (list Bucket) :=
  bucket ← at_index v i;
  Some (<[Z.to_nat i := bucket ++ [x]]> v).

Section HashTable.

(** [utils::hash(key, size)] of the header. *)
Variable utils_hash : Z → Z → Z.
(** [HashTable::kGrowthCoefficient] of the header. *)
Variable kGrowthCoefficient : Z.

(** [HashTable::hash] *)
Definition hash (t : HashTable) (key : Z) : Z :=
  utils_hash key (Z.of_nat (length (buckets_ t))).

(** Modelled from the spec: the initial value of [num_keys_] comes from
    its default member initialiser in [hash_table.hpp], which is not in
    the sources; the specification gives [size = 0] after construction. *)
Definition num_keys_init : Z := 0.

(** [HashTable::HashTable(int capacity, double load_factor)]: [inl] is
    the exception thrown, [inr] the constructed table. *)
Definition HashTable_new (capacity : Z) (load_factor : double)
  : exception + HashTable :=
  if capacity <=? 0 then
    inl (logic_error "hash table capacity must be greater than zero")
  else if Double.le load_factor Double.zero || Double.gt load_factor Double.one then
    inl (logic_error "hash table load factor must be in range [0...1]")
  else
    inr {| num_keys_ := num_keys_init;
           load_factor_ := load_factor;
           buckets_ := replicate (Z.to_nat capacity) [] |}.

(** [HashTable::Search] *)
Definition Search (t : HashTable) (key : Z) : option (optional string) :=
  let index := hash t key in
  bucket ← at_index (buckets_ t) index;
  Some match find_pair key bucket with
       | Some kv => has_value kv.2
       | None => nullopt
       end.

(** The test [static_cast<double>(num_keys_) / buckets_.size() >= load_factor_]. *)
Definition threshold_reached (num_keys : Z) (bucket_count : nat)
    (load_factor : double) : bool :=
  Double.ge (Double.div (Double.of_Z num_keys) (Double.of_Z (Z.of_nat bucket_count)))
            load_factor.

(** The inner loop of the rehash: every pair of one old bucket is pushed
    to the back of the new bucket its key hashes to. *)
Fixpoint rehash_bucket (bucket : Bucket) (new_buckets : list Bucket)
  : option (list Bucket) :=
  match bucket with
  | [] => Some new_buckets
  | kv :: rest =>
      let new_index := utils_hash kv.1 (Z.of_nat (length new_buckets)) in
      new_buckets' ← push_back_at new_buckets new_index kv;
      rehash_bucket rest new_buckets'
  end.

(** The outer loop of the rehash, over the old buckets in order. *)
Fixpoint rehash (buckets : list Bucket) (new_buckets : list Bucket)
  : option (list Bucket) :=
  match buckets with
  | [] => Some new_buckets
  | bucket :: rest =>
      new_buckets' ← rehash_bucket bucket new_buckets;
      rehash rest new_buckets'
  end.

(** [HashTable::Put] *)
Definition Put (t : HashTable) (key : Z) (value : string) : option HashTable :=
  let hashIndex := hash t key in
  bucket ← at_index (buckets_ t) hashIndex;
  match assign key value bucket with
  | Some bucket' =>
      Some {| num_keys_ := num_keys_ t;
              load_factor_ := load_factor_ t;
              buckets_ := <[Z.to_nat hashIndex := bucket']> (buckets_ t) |}
  | None =>
      let buckets := <[Z.to_nat hashIndex := bucket ++ [(key, value)]]> (buckets_ t) in
      let num_keys := num_keys_ t + 1 in
      if threshold_reached num_keys (length buckets) (load_factor_ t) then
        let new_size := Z.to_nat (Z.of_nat (length buckets) * kGrowthCoefficient) in
        new_buckets ← rehash buckets (replicate new_size []);
        Some {| num_keys_ := num_keys;
                load_factor_ := load_factor_ t;
                buckets_ := new_buckets |}
      else
        Some {| num_keys_ := num_keys;
                load_factor_ := load_factor_ t;
                buckets_ := buckets |}
  end.

(** [HashTable::Remove]: [num_keys_] is left as it is. *)
Definition Remove (t : HashTable) (key : Z)
  : option (optional string * HashTable) :=
  let index := hash t key in
  bucket ← at_index (buckets_ t) index;
  match find_pair key bucket with
  | Some kv =>
      let to_return := kv.2 in
      Some (has_value to_return,
            {| num_keys_ := num_keys_ t;
               load_factor_ := load_factor_ t;
               buckets_ := <[Z.to_nat index := list_remove kv bucket]> (buckets_ t) |})
  | None => Some (nullopt, t)
  end.

(** [HashTable::ContainsKey] *)
Definition ContainsKey (t : HashTable) (key : Z) : option bool :=
  r ← Search t key;
  Some match r with has_value _ => true | nullopt => false end.

(** The accessors. *)
Definition size (t : HashTable) : Z := num_keys_ t.
Definition empty (t : HashTable) : bool := size t =? 0.
Definition capacity (t : HashTable) : Z := Z.of_nat (length (buckets_ t)).
Definition load_factor (t : HashTable) : double := load_factor_ t.

(** All pairs of the table, bucket after bucket. *)
Definition entries (t : HashTable) : list (Z * string) := mjoin (buckets_ t).

(** [HashTable::keys]: the [std::unordered_set] of the keys. *)
Definition keys (t : HashTable) : gset Z := list_to_set (entries t).*1.

(** [HashTable::values] *)
Definition values (t : HashTable) : list string := (entries t).*2.

(** *** States of a table in use *)

(** One call of a mutating member function that returns. *)
Inductive step : HashTable → HashTable → Prop :=
| step_Put t key value t' :
    Put t key value = Some t' → step t t'
| step_Remove t key r t' :
    Remove t key = Some (r, t') → step t t'.

(** The states a successfully constructed table can reach by [Put] and
    [Remove]. *)
Inductive reachable : HashTable → Prop :=
| reachable_new capacity load_factor t :
    HashTable_new capacity load_factor = inr t → reachable t
| reachable_step t t' :
    reachable t → step t t' → reachable t'.

(** Every pair sits in the bucket its key hashes to, for the current
    number of buckets. *)
Definition placed (buckets : list Bucket) : Prop :=
  ∀ (i : nat) (bucket : Bucket) (kv : Z * string),
    buckets !! i = Some bucket → kv ∈ bucket →
    utils_hash kv.1 (Z.of_nat (length buckets)) = Z.of_nat i.

(** No bucket holds a key twice. *)
Definition distinct_keys (buckets : list Bucket) : Prop :=
  ∀ (i : nat) (bucket : Bucket), buckets !! i = Some bucket → NoDup bucket.*1.

Definition table_inv (t : HashTable) : Prop :=
  (0 < length (buckets_ t))%nat ∧ placed (buckets_ t) ∧ distinct_keys (buckets_ t).

(** [size / capacity >= load_factor], as [Put] computes it. *)
Definition over_threshold (t : HashTable) : bool :=
  threshold_reached (size t) (length (buckets_ t)) (load_factor t).

(** [size / capacity < load_factor], in the same arithmetic. *)
Definition under_threshold (t : HashTable) : bool :=
  Double.lt (Double.div (Double.of_Z (size t)) (Double.of_Z (capacity t)))
            (load_factor t).

(** The specification's load-factor invariant: every insertion of a new
    key into a reachable table leaves it under the threshold. *)
Definition Put_restores_threshold : Prop :=
  ∀ t key value t',
    reachable t → Search t key = Some nullopt → Put t key value = Some t' →
    under_threshold t' = true.

(** The states a successfully constructed table reaches by [Put] alone. *)
Inductive built : HashTable → Prop :=
| built_new capacity load_factor t :
    HashTable_new capacity load_factor = inr t → built t
| built_Put t key value t' :
    built t → Put t key value = Some t' → built t'.

End HashTable.

(** ** A concrete instance, for running the operations *)

(** A hash function that meets the contract of [utils::hash]. *)
Definition mod_hash (key size : Z) : Z := key mod size.

Definition half : double := Double.div Double.one (Double.of_Z 2).
Definition quarter : double := Double.div Double.one (Double.of_Z 4).

(** Runs a sequence of calls from a table, [None] if one of them is undefined. *)
Inductive call : Type :=
| call_Put (key : Z) (value : string)
| call_Remove (key : Z).

Definition do_call (t : HashTable) (c : call) : option HashTable :=
  match c with
  | call_Put key value => Put mod_hash 2 t key value
  | call_Remove key => snd <$> Remove mod_hash t key
  end.

Fixpoint do_calls (t : HashTable) (cs : list call) : option HashTable :=
  match cs with
  | [] => Some t
  | c :: cs => t' ← do_call t c; do_calls t' cs
  end.

(** [HashTable(capacity, load_factor)] followed by the calls [cs]. *)
Definition table_of (capacity : Z) (load_factor : double) (cs : list call)
  : option HashTable :=
  match HashTable_new capacity load_factor with
  | inr t => do_calls t cs
  | inl _ => None
  end.

(** Tables used as examples: each is what the calls named with it build
    (lemma [samples_built]). *)
Definition sample_empty : HashTable :=
  {| num_keys_ := 0; load_factor_ := half; buckets_ := replicate 10 [] |}.

Definition sample_a : HashTable :=
  {| num_keys_ := 1; load_factor_ := half;
     buckets_ := [[]; [(1, "a")]; []; []; []; []; []; []; []; []] |}.

Definition sample_ab : HashTable :=
  {| num_keys_ := 2; load_factor_ := half;
     buckets_ := [[]; [(1, "a")]; [(2, "b")]; []; []; []; []; []; []; []] |}.

Definition sample_small : HashTable :=
  {| num_keys_ := 1; load_factor_ := half;
     buckets_ := [[]; [(1, "a")]; []; []] |}.

Definition sample_grown : HashTable :=
  {| num_keys_ := 2; load_factor_ := half;
     buckets_ := [[]; [(1, "a")]; []; []; []; []; [(6, "b")]; []] |}.

Definition sample_tiny : HashTable :=
  {| num_keys_ := 0; load_factor_ := quarter; buckets_ := [[]] |}.

Definition sample_over : HashTable :=
  {| num_keys_ := 1; load_factor_ := quarter; buckets_ := [[]; [(7, "a")]] |}.

(** [sample_a] after [Remove(1)]. *)
Definition sample_removed : HashTable :=
  {| num_keys_ := 1; load_factor_ := half; buckets_ := replicate 10 [] |}.

(** A table of one bucket with a NaN load factor, and the same after
    [Put(7, "a")] and [Put(8, "b")]. *)
Definition sample_nan : HashTable :=
  {| num_keys_ := 0; load_factor_ := S754_nan; buckets_ := [[]] |}.

Definition sample_nan_two : HashTable :=
  {| num_keys_ := 2; load_factor_ := S754_nan;
     buckets_ := [[(7, "a"); (8, "b")]] |}.

(** ** Vectors and buckets *)

Section Lists.

Lemma at_index_Some {A : Type} (v : list A) (i : Z) (x : A) :
  at_index v i = Some x ↔ 0 ≤ i ∧ v !! Z.to_nat i = Some x.
Proof.
  unfold at_index. destruct (Z.leb_spec 0 i); split.
  - by intros.
  - by intros [_ ?].
  - discriminate.
  - intros [? _]. lia.
Qed.

Lemma at_index_in_range {A : Type} (v : list A) (i : Z) :
  0 ≤ i < Z.of_nat (length v) → is_Some (at_index v i).
Proof.
  intros Hi. destruct (lookup_lt_is_Some_2 v (Z.to_nat i)) as [x Hx]; [lia|].
  exists x. apply at_index_Some. split; [lia|done].
Qed.

Lemma at_index_length {A : Type} (v : list A) (i : Z) (x : A) :
  at_index v i = Some x → 0 ≤ i < Z.of_nat (length v).
Proof.
  intros [? Hx]%at_index_Some. apply lookup_lt_Some in Hx. lia.
Qed.

Lemma find_pair_Some key bucket kv :
  find_pair key bucket = Some kv → kv.1 = key ∧ kv ∈ bucket.
Proof.
  induction bucket as [|p rest IH]; simpl; [done|].
  destruct (Z.eqb_spec p.1 key) as [Heq|Hne].
  - intros [= <-]. split; [done|]. left.
  - intros [? ?]%IH. split; [done|]. by right.
Qed.

Lemma find_pair_None key bucket :
  find_pair key bucket = None ↔ ∀ kv, kv ∈ bucket → kv.1 ≠ key.
Proof.
  induction bucket as [|p rest IH]; simpl.
  - split; [|done]. intros _ kv Hin. by apply elem_of_nil in Hin.
  - destruct (Z.eqb_spec p.1 key) as [Heq|Hne].
    + split; [done|]. intros H. destruct (H p); [left|done].
    + rewrite IH. split.
      * intros H kv [->|Hin]%elem_of_cons; auto.
      * intros H kv Hin. apply H. by right.
Qed.

Lemma find_pair_app key b1 b2 :
  find_pair key (b1 ++ b2) =
  match find_pair key b1 with
  | Some kv => Some kv
  | None => find_pair key b2
  end.
Proof.
  induction b1 as [|p rest IH]; simpl; [done|].
  by destruct (p.1 =? key).
Qed.

Lemma find_pair_filter key (P : Z * string → Prop) `{!∀ kv, Decision (P kv)} bucket :
  (∀ kv, kv.1 = key → P kv) →
  find_pair key (filter P bucket) = find_pair key bucket.
Proof.
  intros HP. induction bucket as [|p rest IH]; [done|].
  rewrite filter_cons. simpl. destruct (Z.eqb_spec p.1 key) as [Heq|Hne].
  - rewrite decide_True by auto. simpl. by rewrite (proj2 (Z.eqb_eq _ _) Heq).
  - destruct (decide (P p)); [|done]. simpl.
    by rewrite (proj2 (Z.eqb_neq _ _) Hne).
Qed.

Lemma find_pair_remove key kv bucket :
  kv.1 ≠ key → find_pair key (list_remove kv bucket) = find_pair key bucket.
Proof.
  intros Hne. apply find_pair_filter. intros p Hp ->. done.
Qed.

Lemma assign_None key value bucket :
  assign key value bucket = None ↔ find_pair key bucket = None.
Proof.
  induction bucket as [|p rest IH]; simpl; [done|].
  destruct (p.1 =? key); [done|].
  rewrite <- IH. destruct (assign key value rest); simpl; split; done.
Qed.

(** The assignment of [Put] changes the value of the first pair with the
    key and nothing else: the keys of the bucket stay where they are. *)
Lemma assign_Some key value bucket kv :
  find_pair key bucket = Some kv →
  ∃ bucket', assign key value bucket = Some bucket' ∧
    find_pair key bucket' = Some (key, value) ∧
    bucket'.*1 = bucket.*1 ∧
    (∀ key', key' ≠ key → find_pair key' bucket' = find_pair key' bucket).
Proof.
  induction bucket as [|p rest IH]; simpl; [done|].
  destruct (Z.eqb_spec p.1 key) as [Heq|Hne].
  - intros _. eexists. split; [done|]. simpl.
    rewrite Heq, Z.eqb_refl. split_and!; [done..|].
    intros key' Hne. by rewrite (proj2 (Z.eqb_neq _ _)) by done.
  - intros (bucket' & -> & Hfind & Hkeys & Hframe)%IH.
    eexists. split; [done|]. simpl.
    rewrite (proj2 (Z.eqb_neq _ _) Hne). split_and!; [done|by f_equal|].
    intros key' Hne'. by rewrite Hframe.
Qed.

End Lists.

(** ** The rehash and the placement of the pairs *)

Section Theory.

Variable utils_hash : Z → Z → Z.
Variable kGrowthCoefficient : Z.

(** The contract of the hash function: an index below the bucket count. *)
Hypothesis utils_hash_range :
  ∀ key n, 0 < n → 0 ≤ utils_hash key n < n.

(** The growth coefficient is a constant greater than one. *)
Hypothesis growth_gt_1 : 1 < kGrowthCoefficient.

Local Abbreviation hash := (hash utils_hash).
Local Abbreviation Search := (Search utils_hash).
Local Abbreviation Put := (Put utils_hash kGrowthCoefficient).
Local Abbreviation Remove := (Remove utils_hash).
Local Abbreviation rehash_bucket := (rehash_bucket utils_hash).
Local Abbreviation rehash := (rehash utils_hash).
Local Abbreviation placed := (placed utils_hash).
Local Abbreviation table_inv := (table_inv utils_hash).
Local Abbreviation step := (step utils_hash kGrowthCoefficient).
Local Abbreviation reachable := (reachable utils_hash kGrowthCoefficient).
Local Abbreviation lands n i :=
  (λ kv : Z * string, utils_hash kv.1 (Z.of_nat n) = Z.of_nat i).

Lemma rehash_bucket_length bucket new_buckets new_buckets' :
  rehash_bucket bucket new_buckets = Some new_buckets' →
  length new_buckets' = length new_buckets.
Proof.
  revert new_buckets. induction bucket as [|kv rest IH]; intros nb; simpl.
  - by intros [= ->].
  - unfold push_back_at. destruct (at_index nb _) as [b|]; simpl; [|done].
    intros ->%IH. by rewrite length_insert.
Qed.

Lemma rehash_length buckets new_buckets new_buckets' :
  rehash buckets new_buckets = Some new_buckets' →
  length new_buckets' = length new_buckets.
Proof.
  revert new_buckets. induction buckets as [|b rest IH]; intros nb; simpl.
  - by intros [= ->].
  - destruct (rehash_bucket b nb) as [nb1|] eqn:Hb; simpl; [|done].
    intros ->%IH. by eapply rehash_bucket_length.
Qed.

(** The inner loop never leaves the new vector, and appends to each new
    bucket the pairs that hash to it, in the order of the old bucket. *)
Lemma rehash_bucket_spec bucket new_buckets :
  (0 < length new_buckets)%nat →
  ∃ new_buckets', rehash_bucket bucket new_buckets = Some new_buckets' ∧
    ∀ i b, new_buckets !! i = Some b →
      new_buckets' !! i = Some (b ++ filter (lands (length new_buckets) i) bucket).
Proof.
  revert new_buckets. induction bucket as [|kv rest IH]; intros nb Hlen; simpl.
  - exists nb. split; [done|]. intros i b Hb. by rewrite filter_nil, app_nil_r.
  - set (n := Z.of_nat (length nb)).
    destruct (utils_hash_range kv.1 n) as [Hlo Hhi]; [lia|].
    destruct (at_index_in_range nb (utils_hash kv.1 n)) as [bj Hbj]; [lia|].
    unfold push_back_at. rewrite Hbj. simpl.
    apply at_index_Some in Hbj as [_ Hbj].
    destruct (IH (<[Z.to_nat (utils_hash kv.1 n) := bj ++ [kv]]> nb))
      as (nb' & Hre & Hlook).
    { by rewrite length_insert. }
    exists nb'. rewrite length_insert in Hlook. split; [done|].
    intros i b Hb. rewrite filter_cons.
    destruct (decide (i = Z.to_nat (utils_hash kv.1 n))) as [->|Hne].
    + rewrite decide_True by (fold n; lia).
      rewrite Hb in Hbj. injection Hbj as ->.
      rewrite (Hlook _ (bj ++ [kv])).
      * by rewrite <- app_assoc.
      * apply list_lookup_insert_eq. by eapply lookup_lt_Some.
    + rewrite decide_False by (fold n; lia).
      apply Hlook. by rewrite list_lookup_insert_ne.
Qed.

Lemma rehash_spec buckets new_buckets :
  (0 < length new_buckets)%nat →
  ∃ new_buckets', rehash buckets new_buckets = Some new_buckets' ∧
    ∀ i b, new_buckets !! i = Some b →
      new_buckets' !! i =
      Some (b ++ filter (lands (length new_buckets) i) (mjoin buckets)).
Proof.
  revert new_buckets. induction buckets as [|b0 rest IH]; intros nb Hlen; simpl.
  - exists nb. split; [done|]. intros i b Hb. by rewrite filter_nil, app_nil_r.
  - destruct (rehash_bucket_spec b0 nb Hlen) as (nb1 & Hnb1 & Hlook1).
    rewrite Hnb1. simpl.
    pose proof (rehash_bucket_length _ _ _ Hnb1) as Hlen1.
    destruct (IH nb1) as (nb' & Hre & Hlook); [lia|].
    exists nb'. split; [done|].
    intros i b Hb. rewrite (Hlook i _ (Hlook1 i b Hb)).
    by rewrite Hlen1, filter_app, app_assoc.
Qed.

(** The rehash into a fresh vector of [n] empty buckets: it is defined,
    and bucket [i] of the result holds the pairs that hash to [i], in the
    order of the old table. *)
Lemma rehash_fresh buckets (n : nat) :
  (0 < n)%nat →
  ∃ new_buckets, rehash buckets (replicate n []) = Some new_buckets ∧
    length new_buckets = n ∧
    ∀ i, (i < n)%nat →
      new_buckets !! i = Some (filter (lands n i) (mjoin buckets)).
Proof.
  intros Hn.
  destruct (rehash_spec buckets (replicate n [])) as (nb & Hnb & Hlook).
  { by rewrite length_replicate. }
  exists nb. split; [done|]. split.
  { apply rehash_length in Hnb. by rewrite Hnb, length_replicate. }
  intros i Hi. rewrite (Hlook i []).
  - by rewrite length_replicate.
  - by apply lookup_replicate_2.
Qed.

(** *** Pairs found through the whole table *)

(** When the buckets of a vector are told apart by a function of the key,
    scanning all of them finds what scanning the right one finds. *)
Lemma find_pair_concat (g : Z → nat) (o : nat) (buckets : list Bucket) key j b :
  (∀ i bucket kv, buckets !! i = Some bucket → kv ∈ bucket → g kv.1 = (o + i)%nat) →
  buckets !! j = Some b → g key = (o + j)%nat →
  find_pair key (mjoin buckets) = find_pair key b.
Proof.
  revert o j. induction buckets as [|b0 rest IH]; intros o j Hg Hj Hkey; [done|].
  simpl. rewrite find_pair_app. destruct j as [|j]; simpl in Hj.
  - injection Hj as ->. destruct (find_pair key b) as [kv|] eqn:Hb; [done|].
    apply find_pair_None. intros kv [bucket [Hin [i Hi]%list_elem_of_lookup]]%list_elem_of_join Heq.
    specialize (Hg (S i) bucket kv Hi Hin). rewrite Heq in Hg. lia.
  - destruct (find_pair key b0) as [kv|] eqn:Hb0.
    + apply find_pair_Some in Hb0 as [Heq Hin].
      specialize (Hg 0%nat b0 kv eq_refl Hin). rewrite Heq in Hg. lia.
    + apply (IH (S o) j); [|done|lia].
      intros i bucket kv Hi Hin. rewrite (Hg (S i) bucket kv Hi Hin). lia.
Qed.

Lemma NoDup_concat (g : Z → nat) (o : nat) (buckets : list Bucket) :
  (∀ i bucket kv, buckets !! i = Some bucket → kv ∈ bucket → g kv.1 = (o + i)%nat) →
  (∀ i bucket, buckets !! i = Some bucket → NoDup bucket.*1) →
  NoDup (mjoin buckets).*1.
Proof.
  revert o. induction buckets as [|b0 rest IH]; intros o Hg Hnd; simpl.
  - constructor.
  - rewrite fmap_app. apply NoDup_app. split_and!.
    + by apply (Hnd 0%nat).
    + intros key [kv [-> Hin]]%list_elem_of_fmap [kv' [Heq Hin']]%list_elem_of_fmap.
      apply list_elem_of_join in Hin' as [bucket [Hin' [i Hi]%list_elem_of_lookup]].
      pose proof (Hg 0%nat b0 kv eq_refl Hin) as H0.
      pose proof (Hg (S i) bucket kv' Hi Hin') as H1. rewrite <- Heq in H1. lia.
    + apply (IH (S o)).
      * intros i bucket kv Hi Hin. rewrite (Hg (S i) bucket kv Hi Hin). lia.
      * intros i bucket Hi. by apply (Hnd (S i)).
Qed.

Lemma placed_shift (buckets : list Bucket) :
  placed buckets →
  ∀ i bucket kv, buckets !! i = Some bucket → kv ∈ bucket →
    Z.to_nat (utils_hash kv.1 (Z.of_nat (length buckets))) = (0 + i)%nat.
Proof. intros Hp i bucket kv Hi Hin. rewrite (Hp i bucket kv Hi Hin). lia. Qed.

Lemma placed_find_pair buckets key b :
  placed buckets →
  at_index buckets (utils_hash key (Z.of_nat (length buckets))) = Some b →
  find_pair key (mjoin buckets) = find_pair key b.
Proof.
  intros Hp [_ Hb]%at_index_Some.
  eapply (find_pair_concat
            (λ k, Z.to_nat (utils_hash k (Z.of_nat (length buckets)))) 0%nat);
    [by apply placed_shift|done|done].
Qed.

Lemma placed_NoDup buckets :
  placed buckets → distinct_keys buckets → NoDup (mjoin buckets).*1.
Proof.
  intros Hp Hd.
  eapply (NoDup_concat
            (λ k, Z.to_nat (utils_hash k (Z.of_nat (length buckets)))) 0%nat);
    [by apply placed_shift|done].
Qed.

Lemma placed_insert buckets (j : nat) b' :
  placed buckets →
  (∀ kv, kv ∈ b' → utils_hash kv.1 (Z.of_nat (length buckets)) = Z.of_nat j) →
  placed (<[j := b']> buckets).
Proof.
  intros Hp Hb' i bucket kv. rewrite length_insert.
  destruct (decide (i = j)) as [->|Hne].
  - intros Hi Hin. destruct (decide (j < length buckets)%nat).
    + rewrite list_lookup_insert_eq in Hi by done. injection Hi as <-. auto.
    + rewrite list_insert_ge in Hi by lia. eauto.
  - rewrite list_lookup_insert_ne by done. apply Hp.
Qed.

Lemma distinct_keys_insert buckets (j : nat) b' :
  distinct_keys buckets → NoDup b'.*1 → distinct_keys (<[j := b']> buckets).
Proof.
  intros Hd Hb' i bucket. destruct (decide (i = j)) as [->|Hne].
  - intros Hi. destruct (decide (j < length buckets)%nat).
    + rewrite list_lookup_insert_eq in Hi by done. by injection Hi as <-.
    + rewrite list_insert_ge in Hi by lia. eauto.
  - rewrite list_lookup_insert_ne by done. apply Hd.
Qed.

Lemma NoDup_filter_keys (P : Z * string → Prop) `{!∀ kv, Decision (P kv)}
    (l : list (Z * string)) :
  NoDup l.*1 → NoDup (filter P l).*1.
Proof.
  intros Hnd. eapply sublist_NoDup; [done|].
  apply fmap_sublist, sublist_filter.
Qed.

Lemma NoDup_keys_inj (l : list (Z * string)) p q :
  NoDup l.*1 → p ∈ l → q ∈ l → p.1 = q.1 → p = q.
Proof.
  induction l as [|x l IH]; simpl.
  - intros _ Hp. by apply elem_of_nil in Hp.
  - intros [Hx Hnd]%NoDup_cons [->|Hp]%elem_of_cons [->|Hq]%elem_of_cons Heq;
      [done| | |by apply IH].
    + destruct Hx. rewrite Heq. by apply list_elem_of_fmap_2.
    + destruct Hx. rewrite <- Heq. by apply list_elem_of_fmap_2.
Qed.

(** *** The calls, case by case *)

Lemma hash_in_range t key :
  (0 < length (buckets_ t))%nat → is_Some (at_index (buckets_ t) (hash t key)).
Proof.
  intros Hlen. apply at_index_in_range, utils_hash_range. lia.
Qed.

Lemma Search_bucket t key b :
  at_index (buckets_ t) (hash t key) = Some b →
  Search t key = Some match find_pair key b with
                      | Some kv => has_value kv.2
                      | None => nullopt
                      end.
Proof. unfold Search. by intros ->. Qed.

Lemma Search_has_value t key value :
  Search t key = Some (has_value value) ↔
  ∃ b kv, at_index (buckets_ t) (hash t key) = Some b ∧
          find_pair key b = Some kv ∧ kv.2 = value.
Proof.
  unfold Search. destruct (at_index _ _) as [b|]; simpl.
  - destruct (find_pair key b) as [kv|] eqn:Hf; split.
    + intros [= <-]. by exists b, kv.
    + intros (b0 & kv0 & ? & ? & <-). by simplify_eq.
    + done.
    + intros (b0 & kv0 & ? & ? & _). by simplify_eq.
  - split; [done|]. by intros (? & ? & ? & _).
Qed.

Lemma Search_nullopt t key :
  Search t key = Some nullopt ↔
  ∃ b, at_index (buckets_ t) (hash t key) = Some b ∧ find_pair key b = None.
Proof.
  unfold Search. destruct (at_index _ _) as [b|]; simpl.
  - destruct (find_pair key b) as [kv|] eqn:Hf; split.
    + done.
    + intros (b0 & ? & ?). by simplify_eq.
    + intros _. by exists b.
    + done.
  - split; [done|]. by intros (? & ? & _).
Qed.

(** In a table whose pairs are in place, [Search] finds what a scan of
    the whole table finds. *)
Lemma Search_entries t key :
  table_inv t →
  Search t key = Some match find_pair key (entries t) with
                      | Some kv => has_value kv.2
                      | None => nullopt
                      end.
Proof.
  intros (Hlen & Hp & _).
  destruct (hash_in_range t key Hlen) as [b Hb].
  unfold entries. rewrite (placed_find_pair _ _ _ Hp Hb).
  by apply Search_bucket.
Qed.

Lemma Put_assign t key value b kv :
  at_index (buckets_ t) (hash t key) = Some b →
  find_pair key b = Some kv →
  ∃ b', assign key value b = Some b' ∧
    Put t key value =
    Some (mkHashTable (num_keys_ t) (load_factor_ t)
                      (<[Z.to_nat (hash t key) := b']> (buckets_ t))).
Proof.
  intros Hb Hf. destruct (assign_Some key value b kv Hf) as (b' & Hb' & _).
  exists b'. split; [done|]. unfold Put. rewrite Hb. simpl. by rewrite Hb'.
Qed.

Lemma Put_emplace t key value b :
  at_index (buckets_ t) (hash t key) = Some b →
  find_pair key b = None →
  Put t key value =
  let buckets := <[Z.to_nat (hash t key) := b ++ [(key, value)]]> (buckets_ t) in
  if threshold_reached (num_keys_ t + 1) (length (buckets_ t)) (load_factor_ t) then
    new_buckets ← rehash buckets
      (replicate (Z.to_nat (Z.of_nat (length (buckets_ t)) * kGrowthCoefficient)) []);
    Some (mkHashTable (num_keys_ t + 1) (load_factor_ t) new_buckets)
  else Some (mkHashTable (num_keys_ t + 1) (load_factor_ t) buckets).
Proof.
  intros Hb Hf. unfold Put. rewrite Hb. simpl.
  rewrite (proj2 (assign_None key value b) Hf). by rewrite length_insert.
Qed.

Lemma Remove_found t key b kv :
  at_index (buckets_ t) (hash t key) = Some b →
  find_pair key b = Some kv →
  Remove t key =
  Some (has_value kv.2,
        mkHashTable (num_keys_ t) (load_factor_ t)
                    (<[Z.to_nat (hash t key) := list_remove kv b]> (buckets_ t))).
Proof. intros Hb Hf. unfold Remove. rewrite Hb. simpl. by rewrite Hf. Qed.

Lemma Remove_not_found t key b :
  at_index (buckets_ t) (hash t key) = Some b →
  find_pair key b = None →
  Remove t key = Some (nullopt, t).
Proof. intros Hb Hf. unfold Remove. rewrite Hb. simpl. by rewrite Hf. Qed.

(** Replacing the bucket of [key] changes what [Search] finds for the
    keys of that bucket only. *)
Lemma Search_insert t key b b' nk lf key' :
  at_index (buckets_ t) (hash t key) = Some b →
  find_pair key' b' = find_pair key' b →
  Search (mkHashTable nk lf (<[Z.to_nat (hash t key) := b']> (buckets_ t))) key'
  = Search t key'.
Proof.
  intros Hb Hf. unfold Search, hash. simpl. rewrite length_insert.
  fold (hash t key'). fold (hash t key).
  pose proof (at_index_length _ _ _ Hb) as Hrange.
  apply at_index_Some in Hb as [Hlo Hb].
  unfold at_index. destruct (Z.leb_spec 0 (hash t key')) as [Hlo'|]; [|done].
  destruct (decide (hash t key' = hash t key)) as [Heq|Hne].
  - rewrite Heq, Hb, list_lookup_insert_eq by lia. simpl. by rewrite Hf.
  - rewrite list_lookup_insert_ne by lia. done.
Qed.

Lemma assign_elem_of key value b b' kv :
  assign key value b = Some b' → kv ∈ b' → kv ∈ b ∨ kv.1 = key.
Proof.
  revert b'. induction b as [|p rest IH]; intros b'; simpl; [done|].
  destruct (Z.eqb_spec p.1 key) as [Heq|Hne].
  - intros [= <-] [->|Hin]%elem_of_cons; [by right|]. left. by right.
  - destruct (assign key value rest) as [rest'|]; simpl; [|done].
    intros [= <-] [->|Hin]%elem_of_cons; [left; left|].
    destruct (IH rest' eq_refl Hin); [left; by right|by right].
Qed.

(** *** The invariant of the reachable tables *)

Lemma table_inv_new capacity load_factor t :
  HashTable_new capacity load_factor = inr t → table_inv t.
Proof.
  unfold HashTable_new. destruct (Z.leb_spec capacity 0); [done|].
  destruct (_ || _); [done|]. intros [= <-]. split_and!; simpl.
  - rewrite length_replicate. lia.
  - intros i b kv [-> _]%lookup_replicate Hin. by apply elem_of_nil in Hin.
  - intros i b [-> _]%lookup_replicate. constructor.
Qed.

Lemma table_inv_insert t key b b' nk lf :
  table_inv t →
  at_index (buckets_ t) (hash t key) = Some b →
  (∀ kv, kv ∈ b' → kv ∈ b ∨ kv.1 = key) →
  NoDup b'.*1 →
  table_inv (mkHashTable nk lf (<[Z.to_nat (hash t key) := b']> (buckets_ t))).
Proof.
  intros (Hlen & Hp & Hd) Hb Hsub Hnd.
  pose proof Hb as [Hlo Hb']%at_index_Some.
  split_and!; simpl.
  - by rewrite length_insert.
  - apply placed_insert; [done|]. intros kv [Hin| ->]%Hsub.
    + rewrite (Hp _ _ _ Hb' Hin). lia.
    + unfold hash in *. lia.
  - by apply distinct_keys_insert.
Qed.

(** The table that the rehash builds holds the pairs of the old one, each
    in the bucket its key hashes to for the new bucket count, and [Search]
    finds in it what it found before. *)
Lemma table_inv_rehash m (n : nat) nk lf :
  table_inv m → (0 < n)%nat →
  ∃ new_buckets, rehash (buckets_ m) (replicate n []) = Some new_buckets ∧
    length new_buckets = n ∧
    table_inv (mkHashTable nk lf new_buckets) ∧
    (∀ key, Search (mkHashTable nk lf new_buckets) key = Search m key) ∧
    (∀ i, (i < n)%nat →
       new_buckets !! i = Some (filter (lands n i) (entries m))).
Proof.
  intros Hinv Hn.
  destruct (rehash_fresh (buckets_ m) n Hn) as (nb & Hnb & Hlen & Hlook).
  exists nb.
  assert (Hb : ∀ i b, nb !! i = Some b → b = filter (lands n i) (entries m)).
  { intros i b Hi. pose proof (lookup_lt_Some _ _ _ Hi).
    rewrite Hlook in Hi by lia. by injection Hi. }
  assert (Hinv' : table_inv (mkHashTable nk lf nb)).
  { split_and!; simpl.
    - lia.
    - intros i b kv Hi Hin. rewrite (Hb i b Hi) in Hin.
      apply list_elem_of_filter in Hin as [Hl _]. by rewrite Hlen.
    - intros i b Hi. rewrite (Hb i b Hi). apply NoDup_filter_keys.
      destruct Hinv as (_ & ? & ?). by apply placed_NoDup. }
  split_and!; [done..| |done].
  intros key. rewrite (Search_entries m key Hinv).
  destruct (hash_in_range (mkHashTable nk lf nb) key) as [b Hbk]; [simpl; lia|].
  rewrite (Search_bucket _ _ _ Hbk).
  apply at_index_Some in Hbk as [Hlo Hbk]. simpl in Hbk.
  rewrite (Hb _ _ Hbk). rewrite find_pair_filter; [done|].
  intros kv ->. unfold hash in *. simpl in *. rewrite Hlen in *. lia.
Qed.

(** The bucket of [Put] after the [emplace_back]. *)
Lemma table_inv_emplace t key value b :
  table_inv t →
  at_index (buckets_ t) (hash t key) = Some b →
  find_pair key b = None →
  table_inv (mkHashTable (num_keys_ t + 1) (load_factor_ t)
               (<[Z.to_nat (hash t key) := b ++ [(key, value)]]> (buckets_ t))).
Proof.
  intros Hinv Hb Hf. eapply table_inv_insert; [done..| |].
  - intros kv [Hin| ->%list_elem_of_singleton]%elem_of_app; [by left|by right].
  - rewrite fmap_app. apply NoDup_app. split_and!.
    + destruct Hinv as (_ & _ & Hd). apply at_index_Some in Hb as [_ Hb].
      by eapply Hd.
    + intros k [kv [-> Hin]]%list_elem_of_fmap Heq%list_elem_of_singleton.
      by apply (proj1 (find_pair_None key b) Hf kv).
    + apply NoDup_singleton.
Qed.

Lemma Search_emplace t key value b key' :
  at_index (buckets_ t) (hash t key) = Some b →
  find_pair key b = None →
  Search (mkHashTable (num_keys_ t + 1) (load_factor_ t)
            (<[Z.to_nat (hash t key) := b ++ [(key, value)]]> (buckets_ t))) key'
  = if decide (key' = key) then Some (has_value value) else Search t key'.
Proof.
  intros Hb Hf. destruct (decide (key' = key)) as [->|Hne].
  - pose proof (at_index_length _ _ _ Hb) as Hrange.
    unfold Search, hash. simpl. rewrite length_insert. fold (hash t key).
    unfold at_index. destruct (Z.leb_spec 0 (hash t key)); [|lia].
    rewrite list_lookup_insert_eq by lia. simpl.
    by rewrite find_pair_app, Hf; simpl; rewrite Z.eqb_refl.
  - apply Search_insert with b; [done|].
    rewrite find_pair_app. destruct (find_pair key' b); [done|]. simpl.
    by rewrite (proj2 (Z.eqb_neq _ _)) by done.
Qed.

(** *** The pairs of a table *)

Lemma elem_of_entries t kv :
  kv ∈ entries t ↔ ∃ (i : nat) (b : Bucket), buckets_ t !! i = Some b ∧ kv ∈ b.
Proof.
  unfold entries. rewrite list_elem_of_join. split.
  - intros (b & Hin & [i Hi]%list_elem_of_lookup). by exists i, b.
  - intros (i & b & Hi & Hin). exists b. split; [done|].
    by eapply list_elem_of_lookup_2.
Qed.

(** The pairs before and after the bucket at one index. *)
Lemma mjoin_insert (buckets : list Bucket) (j : nat) b :
  buckets !! j = Some b →
  ∃ l1 l2, mjoin buckets = l1 ++ b ++ l2 ∧
           ∀ b', mjoin (<[j := b']> buckets) = l1 ++ b' ++ l2.
Proof.
  intros Hj. exists (mjoin (take j buckets)), (mjoin (drop (S j) buckets)). split.
  - rewrite <- (take_drop_middle buckets j b Hj) at 1. by rewrite join_app.
  - intros b'. rewrite insert_take_drop by (by eapply lookup_lt_Some).
    by rewrite join_app.
Qed.

Lemma entry_in_its_bucket t kv :
  table_inv t → kv ∈ entries t →
  ∃ b, at_index (buckets_ t) (hash t kv.1) = Some b ∧ kv ∈ b.
Proof.
  intros (_ & Hp & _) (i & b & Hi & Hin)%elem_of_entries.
  exists b. split; [|done]. apply at_index_Some.
  unfold hash. rewrite (Hp i b kv Hi Hin).
  split; [lia|]. by rewrite Nat2Z.id.
Qed.

Lemma filter_all {A : Type} (P : A → Prop) `{!∀ x, Decision (P x)} (l : list A) :
  (∀ x, x ∈ l → P x) → filter P l = l.
Proof.
  induction l as [|x l IH]; intros HP; [done|].
  rewrite filter_cons_True by (apply HP; left).
  f_equal. apply IH. intros y Hy. apply HP. by right.
Qed.

Lemma list_remove_length (b : Bucket) kv :
  NoDup b → kv ∈ b → S (length (list_remove kv b)) = length b.
Proof.
  unfold list_remove. induction b as [|p rest IH]; simpl.
  - intros _ Hin. by apply elem_of_nil in Hin.
  - intros [Hp Hnd]%NoDup_cons Hin. rewrite filter_cons.
    destruct (decide (p = kv)) as [->|Hne].
    + rewrite decide_False by (by intros []).
      do 2 f_equal. apply filter_all. intros x Hx ->. done.
    + rewrite decide_True by done. simpl. f_equal. apply IH; [done|].
      apply elem_of_cons in Hin as [->|]; done.
Qed.

(** *** What each call does *)

Lemma entries_NoDup t : table_inv t → NoDup (entries t).
Proof.
  intros (_ & Hp & Hd). eapply NoDup_fmap_1. by apply placed_NoDup.
Qed.

(** [Put] on a key that [Search] finds. *)
Lemma Put_present t key value v :
  Search t key = Some (has_value v) →
  ∃ t', Put t key value = Some t' ∧
    num_keys_ t' = num_keys_ t ∧
    load_factor_ t' = load_factor_ t ∧
    length (buckets_ t') = length (buckets_ t) ∧
    (λ b : Bucket, b.*1) <$> buckets_ t' = (λ b : Bucket, b.*1) <$> buckets_ t ∧
    length (entries t') = length (entries t) ∧
    (∀ key', Search t' key' =
             if decide (key' = key) then Some (has_value value) else Search t key') ∧
    (table_inv t → table_inv t').
Proof.
  intros (b & kv & Hb & Hf & _)%Search_has_value.
  destruct (assign_Some key value b kv Hf) as (b' & Hb' & Hf' & Hkeys & Hframe).
  destruct (Put_assign t key value b kv Hb Hf) as (b'' & Hb'' & HPut).
  rewrite Hb' in Hb''. injection Hb'' as <-.
  eexists. split; [exact HPut|]. simpl.
  pose proof (at_index_length _ _ _ Hb) as Hrange.
  pose proof Hb as [Hlo Hbj]%at_index_Some.
  split_and!; [done|done|by rewrite length_insert| | | |].
  - rewrite list_fmap_insert, Hkeys. apply list_insert_id.
    by rewrite list_lookup_fmap, Hbj.
  - destruct (mjoin_insert _ _ _ Hbj) as (l1 & l2 & Hl & Hl').
    unfold entries. simpl. rewrite Hl, Hl', !length_app.
    by rewrite <- (length_fmap fst b'), Hkeys, length_fmap.
  - intros key'. destruct (decide (key' = key)) as [->|Hne].
    + unfold Search, hash. simpl. rewrite length_insert. fold (hash t key).
      unfold at_index. destruct (Z.leb_spec 0 (hash t key)); [|lia].
      rewrite list_lookup_insert_eq by lia. simpl. by rewrite Hf'.
    + apply Search_insert with b; [done|]. by apply Hframe.
  - intros Hinv. eapply table_inv_insert; [done..| |].
    + intros p Hp. by eapply assign_elem_of.
    + rewrite Hkeys. destruct Hinv as (_ & _ & Hd). by eapply Hd.
Qed.

(** [Put] on a key that [Search] does not find, in a table whose pairs
    are in place. *)
Lemma Put_absent t key value :
  table_inv t → Search t key = Some nullopt →
  ∃ t', Put t key value = Some t' ∧
    table_inv t' ∧
    num_keys_ t' = num_keys_ t + 1 ∧
    load_factor_ t' = load_factor_ t ∧
    (∀ key', Search t' key' =
             if decide (key' = key) then Some (has_value value) else Search t key') ∧
    (∀ kv, kv ∈ entries t' ↔ kv ∈ entries t ∨ kv = (key, value)) ∧
    length (entries t') = S (length (entries t)) ∧
    (if threshold_reached (num_keys_ t + 1) (length (buckets_ t)) (load_factor_ t)
     then capacity t' = capacity t * kGrowthCoefficient
     else capacity t' = capacity t).
Proof.
  intros Hinv (b & Hb & Hf)%Search_nullopt.
  pose proof (table_inv_emplace t key value b Hinv Hb Hf) as Hmid.
  pose proof (λ key', Search_emplace t key value b key' Hb Hf) as Hsearch.
  rewrite (Put_emplace t key value b Hb Hf). cbv zeta.
  set (mid := mkHashTable (num_keys_ t + 1) (load_factor_ t)
                (<[Z.to_nat (hash t key) := b ++ [(key, value)]]> (buckets_ t))) in *.
  assert (Hentries : (∀ kv, kv ∈ entries mid ↔ kv ∈ entries t ∨ kv = (key, value)) ∧
                     length (entries mid) = S (length (entries t))).
  { apply at_index_Some in Hb as [_ Hbj].
    destruct (mjoin_insert _ _ _ Hbj) as (l1 & l2 & Hl & Hl').
    unfold entries, mid. simpl. rewrite Hl, Hl'. split.
    - intros kv. rewrite !elem_of_app, list_elem_of_singleton. tauto.
    - rewrite !length_app. simpl. lia. }
  destruct Hentries as [Hentries Hcount].
  destruct Hinv as (Hlen & _).
  destruct (threshold_reached _ _ _).
  - set (n := Z.to_nat (Z.of_nat (length (buckets_ t)) * kGrowthCoefficient)).
    assert (0 < n)%nat as Hn by (unfold n; nia).
    destruct (table_inv_rehash mid n (num_keys_ t + 1) (load_factor_ t) Hmid Hn)
      as (nb & Hnb & Hlen' & Hinv' & Hs & Hlook).
    change (buckets_ mid) with
      (<[Z.to_nat (hash t key) := b ++ [(key, value)]]> (buckets_ t)) in Hnb.
    rewrite Hnb. simpl. eexists. split; [done|].
    assert (Hmem : ∀ kv, kv ∈ entries (mkHashTable (num_keys_ t + 1) (load_factor_ t) nb)
                         ↔ kv ∈ entries mid).
    { intros kv. rewrite elem_of_entries. simpl. split.
      - intros (i & bi & Hi & Hin). pose proof (lookup_lt_Some _ _ _ Hi).
        rewrite Hlook in Hi by lia. injection Hi as <-.
        by apply list_elem_of_filter in Hin as [_ ?].
      - intros Hin.
        destruct (utils_hash_range kv.1 (Z.of_nat n)) as [Hlo Hhi]; [lia|].
        exists (Z.to_nat (utils_hash kv.1 (Z.of_nat n))). eexists.
        split; [apply Hlook; lia|].
        apply list_elem_of_filter. split; [lia|done]. }
    split_and!; [done|done|done| | | |].
    + intros key'. rewrite Hs. by apply Hsearch.
    + intros kv. by rewrite Hmem.
    + rewrite <- Hcount. apply Permutation_length.
      apply NoDup_Permutation; [by apply entries_NoDup..|done].
    + unfold capacity. simpl. rewrite Hlen'. unfold n. nia.
  - eexists. split; [done|].
    split_and!; [done|done|done|by apply Hsearch|done|done|].
    unfold capacity. simpl. by rewrite length_insert.
Qed.

(** [Remove] on a key that [Search] finds: [num_keys_] stays as it is. *)
Lemma Remove_present t key v :
  Search t key = Some (has_value v) →
  ∃ t', Remove t key = Some (has_value v, t') ∧
    num_keys_ t' = num_keys_ t ∧
    load_factor_ t' = load_factor_ t ∧
    length (buckets_ t') = length (buckets_ t) ∧
    (∀ key', key' ≠ key → Search t' key' = Search t key') ∧
    (length (entries t') < length (entries t))%nat ∧
    (table_inv t →
       table_inv t' ∧ Search t' key = Some nullopt ∧
       S (length (entries t')) = length (entries t)).
Proof.
  intros (b & kv & Hb & Hf & <-)%Search_has_value.
  rewrite (Remove_found t key b kv Hb Hf). eexists. split; [done|]. simpl.
  pose proof (at_index_length _ _ _ Hb) as Hrange.
  pose proof Hb as [Hlo Hbj]%at_index_Some.
  pose proof (find_pair_Some _ _ _ Hf) as [Hkey Hin].
  destruct (mjoin_insert _ _ _ Hbj) as (l1 & l2 & Hl & Hl').
  split_and!; [done|done|by rewrite length_insert| | |].
  - intros key' Hne. apply Search_insert with b; [done|].
    apply find_pair_remove. by rewrite Hkey.
  - unfold entries. simpl. rewrite Hl, Hl', !length_app.
    assert (length (list_remove kv b) < length b)%nat as Hlt
      by (apply (length_filter_lt _ _ kv); [done|by intros ?]).
    lia.
  - intros Hinv. pose proof Hinv as (_ & _ & Hd). specialize (Hd _ _ Hbj).
    split_and!.
    + eapply table_inv_insert; [done..| |].
      * intros p [_ ?]%list_elem_of_filter. by left.
      * by apply NoDup_filter_keys.
    + unfold Search, hash. simpl. rewrite length_insert. fold (hash t key).
      unfold at_index. destruct (Z.leb_spec 0 (hash t key)); [|lia].
      rewrite list_lookup_insert_eq by lia. simpl.
      rewrite (proj2 (find_pair_None key (list_remove kv b))); [done|].
      intros p [Hne Hp]%list_elem_of_filter Heq. apply Hne.
      apply (NoDup_keys_inj b); [done..|]. by rewrite Hkey.
    + unfold entries. simpl. rewrite Hl, Hl', !length_app.
      rewrite <- (list_remove_length b kv); [lia| |done].
      by eapply NoDup_fmap_1.
Qed.

(** [Remove] on a key that [Search] does not find. *)
Lemma Remove_absent t key :
  Search t key = Some nullopt → Remove t key = Some (nullopt, t).
Proof. intros (b & Hb & Hf)%Search_nullopt. by eapply Remove_not_found. Qed.

Lemma Search_defined t key :
  table_inv t →
  (∃ v, Search t key = Some (has_value v)) ∨ Search t key = Some nullopt.
Proof.
  intros (Hlen & _). destruct (hash_in_range t key Hlen) as [b Hb].
  rewrite (Search_bucket _ _ _ Hb). destruct (find_pair key b); eauto.
Qed.

Lemma step_inv t t' : table_inv t → step t t' → table_inv t'.
Proof.
  intros Hinv Hstep. revert Hinv.
  destruct Hstep as [t0 key value t1 HPut|t0 key r t1 HRemove]; intros Hinv.
  - destruct (Search_defined t0 key Hinv) as [[v Hs]|Hs].
    + destruct (Put_present t0 key value v Hs) as (t2 & HPut' & H).
      rewrite HPut in HPut'. injection HPut' as <-. by apply H.
    + destruct (Put_absent t0 key value Hinv Hs) as (t2 & HPut' & H & _).
      rewrite HPut in HPut'. by injection HPut' as <-.
  - destruct (Search_defined t0 key Hinv) as [[v Hs]|Hs].
    + destruct (Remove_present t0 key v Hs) as (t2 & HRemove' & H).
      rewrite HRemove in HRemove'. simplify_eq. by apply H.
    + rewrite (Remove_absent t0 key Hs) in HRemove. by simplify_eq.
Qed.

(** Every reachable table has at least one bucket, each pair in the
    bucket its key hashes to, and no key twice. *)
Lemma reachable_inv t : reachable t → table_inv t.
Proof.
  induction 1 as [capacity lf t Hnew|t t' _ IH Hstep].
  - by eapply table_inv_new.
  - by eapply step_inv.
Qed.

Lemma values_length t : length (values t) = length (entries t).
Proof. unfold values. by rewrite length_fmap. Qed.

Lemma keys_size t :
  table_inv t → base.size (keys t) = length (entries t).
Proof.
  intros (_ & Hp & Hd). unfold keys.
  rewrite size_list_to_set by (by apply placed_NoDup).
  by rewrite length_fmap.
Qed.

Lemma Put_capacity t key value t' :
  Put t key value = Some t' →
  capacity t' = capacity t ∨ capacity t' = capacity t * kGrowthCoefficient.
Proof.
  unfold Put, capacity. destruct (at_index _ _) as [b|]; simpl; [|done].
  destruct (assign key value b) as [b'|].
  - intros [= <-]. simpl. left. by rewrite length_insert.
  - rewrite length_insert. destruct (threshold_reached _ _ _).
    + destruct (rehash _ _) as [nb|] eqn:Hnb; simpl; [|done].
      intros [= <-]. simpl. right.
      apply rehash_length in Hnb. rewrite Hnb, length_replicate. nia.
    + intros [= <-]. simpl. left. by rewrite length_insert.
Qed.

Lemma Remove_capacity t key r t' :
  Remove t key = Some (r, t') → capacity t' = capacity t.
Proof.
  unfold Remove, capacity. destruct (at_index _ _) as [b|]; simpl; [|done].
  destruct (find_pair key b) as [kv|]; intros [= <- <-]; [|done].
  simpl. by rewrite length_insert.
Qed.

(** ** The properties of the specification *)

(** C1 (the code departs from it). In every reachable table in which
    [key] is present, [Remove key] returns the stored value and takes
    exactly one pair out of the table, after which [key] is absent; but
    [size()] is what it was before the call: the counter of keys is not
    decremented. *)
Theorem Remove_keeps_size t key v :
  reachable t → Search t key = Some (has_value v) →
  ∃ t', Remove t key = Some (has_value v, t') ∧
    S (length (entries t')) = length (entries t) ∧
    Search t' key = Some nullopt ∧
    size t' = size t.
Proof.
  intros Hinv%reachable_inv Hs.
  destruct (Remove_present t key v Hs) as (t' & HRemove & Hsize & _ & _ & _ & _ & H).
  destruct (H Hinv) as (_ & Habsent & Hlen).
  by exists t'.
Qed.

(** The count of keys is the number of pairs after the construction, and
    every [Put] keeps it so: [Remove] alone separates the two. *)
Lemma new_counts capacity load_factor t :
  HashTable_new capacity load_factor = inr t →
  size t = Z.of_nat (length (entries t)).
Proof.
  unfold HashTable_new. destruct (capacity <=? 0); [done|].
  destruct (_ || _); [done|]. intros [= <-]. unfold size, entries. simpl.
  induction (Z.to_nat capacity) as [|n IH]; [done|]. by simpl.
Qed.

Lemma Put_counts t key value t' :
  table_inv t → size t = Z.of_nat (length (entries t)) →
  Put t key value = Some t' →
  size t' = Z.of_nat (length (entries t')).
Proof.
  intros Hinv Hsize HPut. unfold size in *.
  destruct (Search_defined t key Hinv) as [[v Hs]|Hs].
  - destruct (Put_present t key value v Hs) as (t2 & HPut' & Hnum & _ & _ & _ & Hlen & _).
    rewrite HPut in HPut'. injection HPut' as <-. lia.
  - destruct (Put_absent t key value Hinv Hs)
      as (t2 & HPut' & _ & Hnum & _ & _ & _ & Hlen & _).
    rewrite HPut in HPut'. injection HPut' as <-. lia.
Qed.

(** C2 (the code departs from it). From a reachable table in which
    [size()] is the number of pairs, the removal of a present key leads to
    a reachable table whose [size()] is one more than its number of pairs,
    than the number of elements of [keys()] and than the number of
    elements of [values()]. *)
Theorem Remove_breaks_size t key v :
  reachable t → size t = Z.of_nat (length (entries t)) →
  Search t key = Some (has_value v) →
  ∃ t', Remove t key = Some (has_value v, t') ∧
    reachable t' ∧
    size t' = Z.of_nat (length (entries t')) + 1 ∧
    size t' = Z.of_nat (base.size (keys t')) + 1 ∧
    size t' = Z.of_nat (length (values t')) + 1.
Proof.
  intros Hreach Hsize Hs. pose proof (reachable_inv t Hreach) as Hinv.
  destruct (Remove_present t key v Hs) as (t' & HRemove & Hnum & _ & _ & _ & _ & H).
  destruct (H Hinv) as (Hinv' & _ & Hlen).
  exists t'. split; [done|]. split.
  { eapply reachable_step; [done|]. by eapply step_Remove. }
  rewrite values_length, keys_size by done.
  unfold size in *. lia.
Qed.

(** C3, as amended. For every reachable table whose count of keys is
    below [INT_MAX] (the increment of [Put] does not overflow) and every
    key that is not in it, [Put] returns, has added one to [size()], and
    either the test [size / capacity >= load_factor] is false on the
    resulting table, whose capacity is the one before the call, or the test
    was true and the capacity has been multiplied by the growth coefficient
    once; the test is not made again after the growth. *)
Theorem Put_new_key_threshold t key value :
  reachable t → size t < INT_MAX → Search t key = Some nullopt →
  ∃ t', Put t key value = Some t' ∧
    size t' = size t + 1 ∧
    ((over_threshold t' = false ∧ capacity t' = capacity t) ∨
     (threshold_reached (size t + 1) (length (buckets_ t)) (load_factor t) = true ∧
      capacity t' = capacity t * kGrowthCoefficient)).
Proof.
  intros Hinv%reachable_inv _ Hs.
  destruct (Put_absent t key value Hinv Hs)
    as (t' & HPut & _ & Hnum & Hlf & _ & _ & _ & Hcap).
  exists t'. split; [done|]. split; [done|].
  unfold over_threshold, size, load_factor. rewrite Hnum, Hlf.
  destruct (threshold_reached (num_keys_ t + 1) _ _) eqn:Htest.
  - right. done.
  - left. split; [|done]. unfold capacity in Hcap.
    apply Nat2Z.inj in Hcap. by rewrite Hcap.
Qed.

(** C5. For every reachable table, every key and every value, [Put]
    returns and [Search] then finds the value under the key, whether the
    call has grown the table or not. *)
Theorem Put_Search t key value :
  reachable t →
  ∃ t', Put t key value = Some t' ∧ Search t' key = Some (has_value value).
Proof.
  intros Hinv%reachable_inv.
  destruct (Search_defined t key Hinv) as [[v Hs]|Hs].
  - destruct (Put_present t key value v Hs) as (t' & HPut & _ & _ & _ & _ & _ & Hfind & _).
    exists t'. split; [done|]. rewrite Hfind. by rewrite decide_True.
  - destruct (Put_absent t key value Hinv Hs) as (t' & HPut & _ & _ & _ & Hfind & _).
    exists t'. split; [done|]. rewrite Hfind. by rewrite decide_True.
Qed.

(** C6. In every table in which [key] is present, [Put key value]
    returns a table with the same [size()] and the same [capacity()] (the
    threshold is not looked at), with the same keys at the same places of
    the same buckets, and in which [Search key] finds [value]. *)
Theorem Put_overwrites t key value v :
  Search t key = Some (has_value v) →
  ∃ t', Put t key value = Some t' ∧
    size t' = size t ∧
    capacity t' = capacity t ∧
    (λ b : Bucket, b.*1) <$> buckets_ t' = (λ b : Bucket, b.*1) <$> buckets_ t ∧
    Search t' key = Some (has_value value).
Proof.
  intros Hs.
  destruct (Put_present t key value v Hs)
    as (t' & HPut & Hnum & _ & Hlen & Hkeys & _ & Hfind & _).
  exists t'. unfold size, capacity. rewrite Hlen.
  split_and!; [done..|]. rewrite Hfind. by rewrite decide_True.
Qed.

(** C7. For every reachable table and every key that is not in it, when
    the new count of keys over the capacity reaches the load factor, [Put]
    returns a table whose capacity is the old one times the growth
    coefficient, hence larger; every pair of the old table is in the
    bucket at the index [utils::hash] gives to its key for the new
    capacity, as is every pair of the new table; and every key that
    [Search] found before is found with the same value. *)
Theorem Put_resizes t key value :
  reachable t → Search t key = Some nullopt →
  threshold_reached (size t + 1) (length (buckets_ t)) (load_factor t) = true →
  ∃ t', Put t key value = Some t' ∧
    capacity t' = capacity t * kGrowthCoefficient ∧
    capacity t < capacity t' ∧
    (∀ kv, kv ∈ entries t →
       ∃ b, at_index (buckets_ t') (utils_hash kv.1 (capacity t')) = Some b ∧ kv ∈ b) ∧
    placed (buckets_ t') ∧
    (∀ key' v', Search t key' = Some (has_value v') →
                Search t' key' = Some (has_value v')).
Proof.
  intros Hinv%reachable_inv Hs Htest.
  destruct (Put_absent t key value Hinv Hs)
    as (t' & HPut & Hinv' & _ & _ & Hfind & Hentries & _ & Hcap).
  unfold size, load_factor in Htest. rewrite Htest in Hcap.
  exists t'. split_and!; [done|done| | | |].
  - destruct Hinv as (Hlen & _). unfold capacity in *. nia.
  - intros kv Hin. apply (entry_in_its_bucket t' kv Hinv').
    apply Hentries. by left.
  - by destruct Hinv' as (_ & ? & _).
  - intros key' v' Hs'. rewrite Hfind. destruct (decide (key' = key)) as [->|]; [|done].
    rewrite Hs in Hs'. done.
Qed.

(** C8. In every table with at least one bucket and for every key that is
    not among its keys, [Search key] returns absent (a result only: [Search]
    gives no table back, it has nothing to change), and [Remove key] returns
    absent and the table as it was, with its size, its capacity and each of
    its buckets. *)
Theorem absent_key_untouched t key :
  0 < capacity t → key ∉ keys t →
  Search t key = Some nullopt ∧ Remove t key = Some (nullopt, t).
Proof.
  intros Hcap Hkey.
  destruct (hash_in_range t key) as [b Hb]; [unfold capacity in Hcap; lia|].
  assert (find_pair key b = None) as Hf.
  { apply find_pair_None. intros kv Hin Heq. apply Hkey.
    unfold keys. apply elem_of_list_to_set, list_elem_of_fmap.
    exists kv. split; [done|]. apply elem_of_entries.
    apply at_index_Some in Hb as [_ Hb]. eauto. }
  split.
  - by rewrite (Search_bucket t key b Hb), Hf.
  - by apply Remove_not_found with b.
Qed.

(** C9. A [Put] that returns leaves the capacity as it was or multiplies
    it by the growth coefficient, once; a [Remove] that returns leaves it
    as it was ([Search] and the accessors give no table back); and over any
    sequence of calls the capacity does not decrease. *)
Theorem capacity_grows_by_steps :
  (∀ t key value t', Put t key value = Some t' →
     capacity t' = capacity t ∨ capacity t' = capacity t * kGrowthCoefficient) ∧
  (∀ t key r t', Remove t key = Some (r, t') → capacity t' = capacity t) ∧
  (∀ t t', rtc step t t' → capacity t ≤ capacity t').
Proof.
  split_and!.
  - apply Put_capacity.
  - apply Remove_capacity.
  - induction 1 as [t|t t1 t2 Hstep _ IH]; [done|].
    etrans; [|exact IH]. destruct Hstep as [t key value t' HPut|t key r t' HRemove].
    + destruct (Put_capacity _ _ _ _ HPut) as [->| ->]; [done|].
      unfold capacity. nia.
    + by rewrite (Remove_capacity _ _ _ _ HRemove).
Qed.

(** C10. For every reachable table and two distinct keys [key] and
    [key'], [Search key'] has a result, [Put key value] returns,
    [Remove key] returns, and after either [Search key'] has the result it
    had before the call. *)
Theorem Search_other_key t key key' value :
  reachable t → key ≠ key' →
  ∃ found, Search t key' = Some found ∧
    (∃ t', Put t key value = Some t' ∧ Search t' key' = Some found) ∧
    (∃ r t', Remove t key = Some (r, t') ∧ Search t' key' = Some found).
Proof.
  intros Hinv%reachable_inv Hne.
  assert (∃ found, Search t key' = Some found) as [found Hfound].
  { destruct (Search_defined t key' Hinv) as [[v' ?]|?]; eauto. }
  exists found. split; [done|]. rewrite <- Hfound.
  destruct (Search_defined t key Hinv) as [[v Hs]|Hs]; split.
  - destruct (Put_present t key value v Hs)
      as (t' & HPut & _ & _ & _ & _ & _ & Hfind & _).
    exists t'. split; [done|]. rewrite Hfind. by rewrite decide_False.
  - destruct (Remove_present t key v Hs) as (t' & HRemove & _ & _ & _ & Hfind & _).
    exists (has_value v), t'. split; [done|]. by apply Hfind.
  - destruct (Put_absent t key value Hinv Hs) as (t' & HPut & _ & _ & _ & Hfind & _).
    exists t'. split; [done|]. rewrite Hfind. by rewrite decide_False.
  - exists nullopt, t. split; [|done]. by apply Remove_absent.
Qed.

(** ** Further properties of the operations *)

(** *** [Search], [keys] and the pairs of a table *)

Lemma Search_iff_entries t key v :
  table_inv t →
  (Search t key = Some (has_value v) ↔ (key, v) ∈ entries t).
Proof.
  intros Hinv. rewrite (Search_entries t key Hinv).
  destruct Hinv as (_ & Hp & Hd). pose proof (placed_NoDup _ Hp Hd) as Hnd.
  fold (entries t) in Hnd.
  destruct (find_pair key (entries t)) as [kv|] eqn:Hf.
  - apply find_pair_Some in Hf as [Hkey Hin]. split.
    + intros [= <-]. by destruct kv; simplify_eq/=.
    + intros Hin'. do 2 f_equal.
      by rewrite (NoDup_keys_inj (entries t) kv (key, v) Hnd Hin Hin' Hkey).
  - split; [done|]. intros Hin.
    by destruct (proj1 (find_pair_None key (entries t)) Hf (key, v) Hin).
Qed.

Lemma keys_Search t key :
  table_inv t →
  (key ∈ keys t ↔ ∃ v, Search t key = Some (has_value v)).
Proof.
  intros Hinv. unfold keys. rewrite elem_of_list_to_set, list_elem_of_fmap. split.
  - intros ([k v] & -> & Hin). exists v. by apply Search_iff_entries.
  - intros [v Hs]. exists (key, v). split; [done|]. by apply Search_iff_entries.
Qed.

Lemma Search_nullopt_keys t key :
  table_inv t → (Search t key = Some nullopt ↔ key ∉ keys t).
Proof.
  intros Hinv. rewrite (keys_Search t key Hinv). split.
  - intros Hs [v Hv]. rewrite Hs in Hv. done.
  - intros Hnot. destruct (Search_defined t key Hinv) as [Hv|Hs]; [|done].
    by destruct Hnot.
Qed.

(** Two tables in place in which [Search] agrees have the same keys. *)
Lemma keys_ext t1 t2 :
  table_inv t1 → table_inv t2 →
  (∀ key, Search t1 key = Search t2 key) → keys t1 = keys t2.
Proof.
  intros H1 H2 Heq. apply set_eq. intros key.
  rewrite (keys_Search t1 key H1), (keys_Search t2 key H2). by rewrite Heq.
Qed.

(** [Put] on a table in place, in one statement. *)
Lemma Put_spec t key value :
  table_inv t →
  ∃ t', Put t key value = Some t' ∧
    table_inv t' ∧
    load_factor_ t' = load_factor_ t ∧
    (∀ key', Search t' key' =
             if decide (key' = key) then Some (has_value value) else Search t key') ∧
    ((key ∈ keys t ∧ num_keys_ t' = num_keys_ t ∧
      length (buckets_ t') = length (buckets_ t)) ∨
     ((key ∉ keys t) ∧ num_keys_ t' = num_keys_ t + 1 ∧
      capacity t' =
      if threshold_reached (num_keys_ t + 1) (length (buckets_ t)) (load_factor_ t)
      then capacity t * kGrowthCoefficient else capacity t)).
Proof.
  intros Hinv. destruct (Search_defined t key Hinv) as [[v Hs]|Hs].
  - destruct (Put_present t key value v Hs)
      as (t' & HPut & Hnum & Hlf & Hlen & _ & _ & Hfind & Hinv').
    exists t'. split_and!; [done|by apply Hinv'|done|done|].
    left. split_and!; [|done..]. apply keys_Search; eauto.
  - destruct (Put_absent t key value Hinv Hs)
      as (t' & HPut & Hinv' & Hnum & Hlf & Hfind & _ & _ & Hcap).
    exists t'. split_and!; [done..|].
    right. split_and!; [|done|].
    + by apply Search_nullopt_keys.
    + by destruct (threshold_reached _ _ _).
Qed.

(** [Remove] on a table in place, in one statement. *)
Lemma Remove_spec t key :
  table_inv t →
  ∃ r t', Remove t key = Some (r, t') ∧
    table_inv t' ∧
    Search t key = Some r ∧
    num_keys_ t' = num_keys_ t ∧
    Search t' key = Some nullopt ∧
    (∀ key', key' ≠ key → Search t' key' = Search t key').
Proof.
  intros Hinv. destruct (Search_defined t key Hinv) as [[v Hs]|Hs].
  - destruct (Remove_present t key v Hs)
      as (t' & HRemove & Hnum & _ & _ & Hframe & _ & H).
    destruct (H Hinv) as (Hinv' & Habsent & _).
    by exists (has_value v), t'.
  - exists nullopt, t. rewrite (Remove_absent t key Hs). done.
Qed.

(** The number of pairs never exceeds the count of keys. *)
Lemma reachable_count t :
  reachable t → Z.of_nat (length (entries t)) ≤ size t.
Proof.
  induction 1 as [capacity lf t Hnew|t t' Hreach IH Hstep].
  - by rewrite (new_counts _ _ _ Hnew).
  - pose proof (reachable_inv t Hreach) as Hinv. unfold size in *.
    revert Hinv IH. clear Hreach.
    destruct Hstep as [t key value t' HPut|t key r t' HRemove]; intros Hinv IH.
    + destruct (Search_defined t key Hinv) as [[v Hs]|Hs].
      * destruct (Put_present t key value v Hs)
          as (t2 & HPut' & Hnum & _ & _ & _ & Hlen & _).
        rewrite HPut in HPut'. injection HPut' as <-. lia.
      * destruct (Put_absent t key value Hinv Hs)
          as (t2 & HPut' & _ & Hnum & _ & _ & _ & Hlen & _).
        rewrite HPut in HPut'. injection HPut' as <-. lia.
    + destruct (Search_defined t key Hinv) as [[v Hs]|Hs].
      * destruct (Remove_present t key v Hs)
          as (t2 & HRemove' & Hnum & _ & _ & _ & Hlen & _).
        rewrite HRemove in HRemove'. simplify_eq. lia.
      * rewrite (Remove_absent t key Hs) in HRemove. by simplify_eq.
Qed.

Lemma no_entries t :
  reachable t → size t = 0 → entries t = [].
Proof.
  intros Hcount%reachable_count Hsize. apply length_zero_iff_nil. lia.
Qed.

Lemma built_reachable t : built utils_hash kGrowthCoefficient t → reachable t.
Proof.
  induction 1 as [capacity lf t Hnew|t key value t' _ IH HPut].
  - by eapply reachable_new.
  - eapply reachable_step; [done|]. by eapply step_Put.
Qed.

(** What one call does to the count of keys, the load factor and the
    capacity, in any table. *)
Lemma step_fields t t' :
  step t t' →
  size t ≤ size t' ∧ load_factor t' = load_factor t ∧
  (capacity t' = capacity t ∨ capacity t' = capacity t * kGrowthCoefficient).
Proof.
  intros [t0 key value t1 HPut|t0 key r t1 HRemove].
  - split_and!; [| |by eapply Put_capacity].
    + revert HPut. unfold Put, size.
      destruct (at_index _ _) as [b|]; simpl; [|done].
      destruct (assign key value b) as [b'|]; [by intros [= <-]|].
      destruct (threshold_reached _ _ _); [|intros [= <-]; simpl; lia].
      destruct (rehash _ _); simpl; [|done]. intros [= <-]. simpl. lia.
    + revert HPut. unfold Put, load_factor.
      destruct (at_index _ _) as [b|]; simpl; [|done].
      destruct (assign key value b) as [b'|]; [by intros [= <-]|].
      destruct (threshold_reached _ _ _); [|by intros [= <-]].
      destruct (rehash _ _); simpl; [|done]. by intros [= <-].
  - split_and!; [| |left; by eapply Remove_capacity].
    + revert HRemove. unfold Remove, size.
      destruct (at_index _ _) as [b|]; simpl; [|done].
      destruct (find_pair key b); by intros [= <- <-].
    + revert HRemove. unfold Remove, load_factor.
      destruct (at_index _ _) as [b|]; simpl; [|done].
      destruct (find_pair key b); by intros [= <- <-].
Qed.

Lemma assign_same key value b kv :
  find_pair key b = Some kv → kv.2 = value → assign key value b = Some b.
Proof.
  induction b as [|p rest IH]; simpl; [done|].
  destruct (p.1 =? key).
  - intros [= <-] <-. by destruct p.
  - intros Hf Hv. by rewrite (IH Hf Hv).
Qed.

Lemma threshold_nan num_keys bucket_count lf :
  Double.is_nan lf = true → threshold_reached num_keys bucket_count lf = false.
Proof. destruct lf; try discriminate. reflexivity. Qed.

Lemma Put_grows t key value t' :
  Put t key value = Some t' → capacity t' ≠ capacity t →
  Search t key = Some nullopt ∧
  threshold_reached (num_keys_ t + 1) (length (buckets_ t)) (load_factor_ t) = true.
Proof.
  unfold Put, Search, capacity. destruct (at_index _ _) as [b|]; simpl; [|done].
  destruct (assign key value b) as [b'|] eqn:Hb.
  - intros [= <-]. simpl. rewrite length_insert. done.
  - apply assign_None in Hb. rewrite Hb, length_insert.
    destruct (threshold_reached _ _ _); [done|].
    intros [= <-]. simpl. rewrite length_insert. done.
Qed.

(** X1. On a reachable table no call indexes the vector of buckets out of
    its bounds: the index [hash] computes is below the capacity, and
    [Search], [ContainsKey], [Put] and [Remove] all return. *)
Theorem calls_defined t key value :
  reachable t →
  0 ≤ hash t key < capacity t ∧
  is_Some (Search t key) ∧
  is_Some (ContainsKey utils_hash t key) ∧
  is_Some (Put t key value) ∧
  is_Some (Remove t key).
Proof.
  intros Hinv%reachable_inv.
  destruct (Put_spec t key value Hinv) as (t1 & HPut & _).
  destruct (Remove_spec t key Hinv) as (r & t2 & HRemove & _ & Hs & _).
  split; [|split_and!].
  - destruct Hinv as (Hlen & _).
    destruct (hash_in_range t key Hlen) as [b Hb].
    by apply at_index_length in Hb.
  - by rewrite Hs.
  - unfold ContainsKey. by rewrite Hs.
  - by rewrite HPut.
  - by rewrite HRemove.
Qed.

(** X2. Every reachable table has at least one bucket, holds each pair in
    the bucket at the index [utils::hash] gives to its key for the current
    capacity, and holds no key twice, over all its buckets. *)
Theorem reachable_well_formed t :
  reachable t →
  0 < capacity t ∧ placed (buckets_ t) ∧ NoDup (entries t).*1.
Proof.
  intros (Hlen & Hp & Hd)%reachable_inv. split_and!; [|done|].
  - unfold capacity. lia.
  - by apply placed_NoDup.
Qed.

(** X3. On a reachable table [Search key] returns [value] exactly when
    the pair [(key, value)] is in one of the buckets, whichever. *)
Theorem Search_finds_entries t key v :
  reachable t →
  (Search t key = Some (has_value v) ↔ (key, v) ∈ entries t).
Proof. intros Hinv%reachable_inv. by apply Search_iff_entries. Qed.




(** X7. On a reachable table the [Put] of a key that is not in [keys()]
    adds its pair and nothing else: the pairs of the new table are those of
    the old one and the new pair, in some order, and so are the [values()]. *)
Theorem Put_new_values t key value :
  reachable t → key ∉ keys t →
  ∃ t', Put t key value = Some t' ∧
    entries t' ≡ₚ (key, value) :: entries t ∧
    values t' ≡ₚ value :: values t.
Proof.
  intros Hinv%reachable_inv Hnew.
  apply (Search_nullopt_keys t key Hinv) in Hnew as Hs.
  destruct (Put_absent t key value Hinv Hs)
    as (t' & HPut & Hinv' & _ & _ & _ & Hentries & _).
  assert (entries t' ≡ₚ (key, value) :: entries t) as Hperm.
  { apply NoDup_Permutation.
    - by apply entries_NoDup.
    - apply NoDup_cons. split; [|by apply entries_NoDup].
      intros Hin. apply Hnew. unfold keys.
      apply elem_of_list_to_set, list_elem_of_fmap. by exists (key, value).
    - intros kv. rewrite Hentries, elem_of_cons. tauto. }
  exists t'. split_and!; [done..|].
  unfold values. by rewrite Hperm.
Qed.

(** X8. On a reachable table whose count of keys has not passed
    [INT_MAX] (no increment has overflowed), [keys()] and [values()] have
    the same number of elements, and [size()] is not below it. *)
Theorem keys_values_count t :
  reachable t → size t ≤ INT_MAX →
  base.size (keys t) = length (values t) ∧
  Z.of_nat (length (values t)) ≤ size t.
Proof.
  intros Hreach _. pose proof (reachable_inv t Hreach) as Hinv.
  rewrite values_length, keys_size by done.
  split; [done|]. by apply reachable_count.
Qed.

(** X9. On a table built by the constructor and calls of [Put] alone,
    [size()] is the number of elements of [keys()] and of [values()]. *)
Theorem built_size t :
  built utils_hash kGrowthCoefficient t →
  size t = Z.of_nat (base.size (keys t)) ∧
  size t = Z.of_nat (length (values t)).
Proof.
  intros Hbuilt.
  assert (size t = Z.of_nat (length (entries t))) as Hsize.
  { induction Hbuilt as [capacity lf t Hnew|t key value t' Hbuilt IH HPut].
    - by eapply new_counts.
    - eapply Put_counts; [|done..]. by apply reachable_inv, built_reachable. }
  rewrite values_length, keys_size; [done|].
  by apply reachable_inv, built_reachable.
Qed.

(** X10. Over any sequence of calls of [Put] and [Remove], from any
    table whose count of keys is an [int], and as long as the count does
    not pass [INT_MAX] (no increment overflows), [size()] does not decrease
    and [load_factor()] does not change. *)
Theorem size_never_decreases t t' :
  rtc step t t' → INT_MIN ≤ size t → size t' ≤ INT_MAX →
  size t ≤ size t' ∧ load_factor t' = load_factor t.
Proof.
  intros Hsteps _ _.
  induction Hsteps as [t|t t1 t2 Hstep _ [IHsize IHlf]]; [done|].
  destruct (step_fields t t1 Hstep) as (Hsize & Hlf & _).
  split; [lia|congruence].
Qed.

(** X11. Over any sequence of calls of [Put] and [Remove], from any
    table, the capacity is the first capacity times a power of the growth
    coefficient. *)
Theorem capacity_power t t' :
  rtc step t t' →
  ∃ k : nat, capacity t' = capacity t * kGrowthCoefficient ^ Z.of_nat k.
Proof.
  induction 1 as [t|t t1 t2 Hstep _ [k IH]].
  - exists 0%nat. simpl. lia.
  - destruct (step_fields t t1 Hstep) as (_ & _ & [Hcap|Hcap]).
    + exists k. by rewrite IH, Hcap.
    + exists (S k). rewrite IH, Hcap, Nat2Z.inj_succ, Z.pow_succ_r by lia. lia.
Qed.

(** X12. A reachable table whose count of keys has not passed [INT_MAX]
    (no increment has overflowed) and for which [empty()] is true has no
    key and no value, and [Search] returns absent for every key. *)
Theorem empty_has_no_keys t :
  reachable t → size t ≤ INT_MAX → empty t = true →
  keys t = ∅ ∧ values t = [] ∧ ∀ key, Search t key = Some nullopt.
Proof.
  intros Hreach _ Hempty. pose proof (reachable_inv t Hreach) as Hinv.
  assert (entries t = []) as Hnil.
  { apply no_entries; [done|]. unfold empty in Hempty. lia. }
  unfold keys, values. rewrite Hnil. split_and!; [done..|].
  intros key. rewrite (Search_entries t key Hinv). by rewrite Hnil.
Qed.

(** X13. On a reachable table a second [Remove] of the same key returns
    absent and changes nothing. *)
Theorem Remove_twice t key :
  reachable t →
  ∃ r t', Remove t key = Some (r, t') ∧ Remove t' key = Some (nullopt, t').
Proof.
  intros Hinv%reachable_inv.
  destruct (Remove_spec t key Hinv) as (r & t' & HRemove & _ & _ & _ & Habsent & _).
  exists r, t'. split; [done|]. by apply Remove_absent.
Qed.

(** X14. On a reachable table whose count of keys is below [INT_MAX] (the
    increment of [Put] does not overflow), [Put] of a key that is not in
    [keys()] followed by [Remove] of that key gives the value back and a
    table in which [Search] returns for every key what it returned at the
    start, with the [keys()] of the start; [size()] is one more than at the
    start. *)
Theorem Put_then_Remove t key value :
  reachable t → size t < INT_MAX → key ∉ keys t →
  ∃ t1 t2, Put t key value = Some t1 ∧
    Remove t1 key = Some (has_value value, t2) ∧
    (∀ key', Search t2 key' = Search t key') ∧
    keys t2 = keys t ∧
    size t2 = size t + 1.
Proof.
  intros Hinv%reachable_inv _ Hnew.
  apply (Search_nullopt_keys t key Hinv) in Hnew as Hs.
  destruct (Put_absent t key value Hinv Hs)
    as (t1 & HPut & Hinv1 & Hnum1 & _ & Hfind1 & _).
  assert (Search t1 key = Some (has_value value)) as Hs1.
  { rewrite Hfind1. by rewrite decide_True. }
  destruct (Remove_present t1 key value Hs1)
    as (t2 & HRemove & Hnum2 & _ & _ & Hframe & _ & H).
  destruct (H Hinv1) as (Hinv2 & Habsent & _).
  assert (∀ key', Search t2 key' = Search t key') as Hsame.
  { intros key'. destruct (decide (key' = key)) as [->|Hne].
    - by rewrite Habsent, Hs.
    - rewrite (Hframe key' Hne), Hfind1. by rewrite decide_False. }
  exists t1, t2. split_and!; [done..| |].
  - by apply keys_ext.
  - unfold size. lia.
Qed.

(** X15. In every table, [Put] of a key with the value [Search] already
    finds for it returns the table as it was. *)
Theorem Put_same_value t key v :
  Search t key = Some (has_value v) → Put t key v = Some t.
Proof.
  intros (b & kv & Hb & Hf & Hv)%Search_has_value.
  unfold Put. rewrite Hb. simpl. rewrite (assign_same key v b kv Hf Hv).
  apply at_index_Some in Hb as [_ Hb]. rewrite list_insert_id by done.
  by destruct t.
Qed.


(** X17. A table that the constructor returns is empty: [empty()] is
    true, [keys()] and [values()] have no element, and for every key
    [Search] returns absent, [ContainsKey] false, and [Remove] absent and
    the same table. *)
Theorem fresh_table cap lf t :
  HashTable_new cap lf = inr t →
  empty t = true ∧ keys t = ∅ ∧ values t = [] ∧
  ∀ key, Search t key = Some nullopt ∧
         ContainsKey utils_hash t key = Some false ∧
         Remove t key = Some (nullopt, t).
Proof.
  intros Hnew.
  assert (reachable t) as Hreach by (by eapply reachable_new).
  pose proof (reachable_inv t Hreach) as Hinv.
  assert (size t = 0) as Hsize.
  { revert Hnew. unfold HashTable_new. destruct (cap <=? 0); [done|].
    destruct (_ || _); [done|]. by intros [= <-]. }
  pose proof (no_entries t Hreach Hsize) as Hnil.
  assert (∀ key, Search t key = Some nullopt) as Hs.
  { intros key. rewrite (Search_entries t key Hinv). by rewrite Hnil. }
  unfold empty, keys, values. rewrite Hsize, Hnil.
  split_and!; [done..|]. intros key. split_and!; [done| |].
  - unfold ContainsKey. by rewrite Hs.
  - by apply Remove_absent.
Qed.

(** X18. The constructor accepts a NaN load factor with any positive
    capacity, and a table whose load factor is a NaN never grows: over any
    sequence of calls of [Put] and [Remove] its capacity stays. *)
Theorem nan_load_factor_never_grows :
  (∀ cap, 0 < cap →
     ∃ t, HashTable_new cap S754_nan = inr t ∧ Double.is_nan (load_factor t) = true) ∧
  (∀ t t', Double.is_nan (load_factor t) = true → rtc step t t' →
     capacity t' = capacity t).
Proof.
  split.
  - intros cap Hcap. unfold HashTable_new.
    rewrite (proj2 (Z.leb_gt cap 0) Hcap). by eexists.
  - intros t t' Hnan Hsteps. induction Hsteps as [t|t t1 t2 Hstep _ IH]; [done|].
    destruct (step_fields t t1 Hstep) as (_ & Hlf & _).
    rewrite IH by (by rewrite Hlf). clear IH.
    destruct Hstep as [t key value t1 HPut|t key r t1 HRemove].
    + destruct (decide (capacity t1 = capacity t)) as [|Hgrow]; [done|].
      destruct (Put_grows t key value t1 HPut Hgrow) as [_ Htest].
      by rewrite threshold_nan in Htest.
    + by eapply Remove_capacity.
Qed.

(** X19. On a reachable table the elements of [values()] are the values
    that [Search] finds under some key. *)
Theorem values_Search t v :
  reachable t →
  (v ∈ values t ↔ ∃ key, Search t key = Some (has_value v)).
Proof.
  intros Hinv%reachable_inv. unfold values. rewrite list_elem_of_fmap. split.
  - intros ([key v'] & -> & Hin). exists key. by apply Search_iff_entries.
  - intros [key Hs]. exists (key, v). split; [done|]. by apply Search_iff_entries.
Qed.

(** X20. In every table, a [Put] that changes the capacity has inserted a
    key that [Search] did not find, with the test
    [size / capacity >= load_factor] true for the incremented size, and has
    multiplied the capacity by the growth coefficient: an overwriting [Put]
    and a [Put] under the threshold never grow the table. *)
Theorem Put_grows_only_at_threshold t key value t' :
  Put t key value = Some t' → capacity t' ≠ capacity t →
  Search t key = Some nullopt ∧
  threshold_reached (size t + 1) (length (buckets_ t)) (load_factor t) = true ∧
  capacity t' = capacity t * kGrowthCoefficient.
Proof.
  intros HPut Hgrow.
  destruct (Put_grows t key value t' HPut Hgrow) as [Hs Htest].
  split_and!; [done..|].
  by destruct (Put_capacity t key value t' HPut).
Qed.

End Theory.

(** ** The concrete instance *)

Lemma mod_hash_range key n : 0 < n → 0 ≤ mod_hash key n < n.
Proof. intros Hn. apply Z.mod_pos_bound, Hn. Qed.

Lemma do_calls_reachable t cs t' :
  reachable mod_hash 2 t → do_calls t cs = Some t' → reachable mod_hash 2 t'.
Proof.
  revert t. induction cs as [|c cs IH]; intros t Hreach; simpl.
  - by intros [= <-].
  - destruct (do_call t c) as [t1|] eqn:Hc; simpl; [|done].
    apply IH. eapply reachable_step; [done|].
    destruct c as [key value|key]; simpl in Hc.
    + by eapply step_Put.
    + destruct (Remove mod_hash t key) as [[r t2]|] eqn:HRemove; simplify_eq/=.
      by eapply step_Remove.
Qed.

Lemma table_of_reachable capacity load_factor cs t :
  table_of capacity load_factor cs = Some t → reachable mod_hash 2 t.
Proof.
  unfold table_of. destruct (HashTable_new capacity load_factor) as [|t0] eqn:Hnew; [done|].
  apply do_calls_reachable. by eapply reachable_new.
Qed.

Lemma samples_built :
  table_of 10 half [] = Some sample_empty ∧
  table_of 10 half [call_Put 1 "a"] = Some sample_a ∧
  table_of 10 half [call_Put 1 "a"; call_Put 2 "b"] = Some sample_ab ∧
  table_of 4 half [call_Put 1 "a"] = Some sample_small ∧
  table_of 4 half [call_Put 1 "a"; call_Put 6 "b"] = Some sample_grown ∧
  table_of 1 quarter [] = Some sample_tiny ∧
  table_of 1 quarter [call_Put 7 "a"] = Some sample_over.
Proof. by vm_compute. Qed.

Lemma samples_reachable :
  reachable mod_hash 2 sample_empty ∧
  reachable mod_hash 2 sample_a ∧
  reachable mod_hash 2 sample_ab ∧
  reachable mod_hash 2 sample_small ∧
  reachable mod_hash 2 sample_grown ∧
  reachable mod_hash 2 sample_tiny ∧
  reachable mod_hash 2 sample_over.
Proof.
  destruct samples_built as (? & ? & ? & ? & ? & ? & ?).
  split_and!; by eapply table_of_reachable.
Qed.

(** ** Construction *)

Lemma SFcompare_one_opp (s : bool) (m : positive) (e : Z) :
  SFcompare Double.one (S754_finite s m e) =
  match SFcompare (S754_finite s m e) Double.one with
  | Some c => Some (CompOpp c)
  | None => None
  end.
Proof.
  change Double.one with (S754_finite false 4503599627370496 (-52)).
  destruct s; [reflexivity|]. unfold SFcompare.
  rewrite (Z.compare_antisym (-52) e).
  destruct (-52 ?= e); [|reflexivity..].
  change (CompOpp Eq) with Eq. cbv beta iota.
  by rewrite Pos.compare_cont_antisym.
Qed.

(** For a load factor that is a number, the two tests of the constructor
    say that it is not in (0, 1]: one of them holds exactly when
    [0 < load_factor && load_factor <= 1] does not.  (Every comparison with
    a NaN is false, so a NaN passes both tests.) *)
Lemma rejected_iff_outside (lf : double) :
  Double.is_nan lf = false →
  Double.le lf Double.zero || Double.gt lf Double.one
  = negb (Double.gt lf Double.zero && Double.le lf Double.one).
Proof.
  destruct lf as [s|s| |s m e]; [destruct s; reflexivity..|discriminate|].
  intros _. unfold Double.le, Double.gt, SFleb, SFltb.
  rewrite SFcompare_one_opp.
  destruct s; [reflexivity|].
  change (SFcompare (S754_finite false m e) Double.zero) with (Some Gt).
  change (SFcompare Double.zero (S754_finite false m e)) with (Some Lt).
  change Double.one with (S754_finite false 4503599627370496 (-52)).
  cbv [SFcompare].
  destruct (e ?= -52); [destruct (Pos.compare_cont Eq m _)|..]; reflexivity.
Qed.

(** The constructor as its tests are written: it throws exactly when
    [capacity <= 0], or [load_factor <= 0], or [load_factor > 1] (the
    comparisons of [double]), and then gives no table; otherwise it gives
    the table of [capacity] empty buckets, with size 0 and the load factor
    it was given. *)
Theorem HashTable_new_spec (cap : Z) (lf : double) :
  ((∃ what, HashTable_new cap lf = inl (logic_error what)) ↔
   (cap ≤ 0 ∨ Double.le lf Double.zero = true ∨ Double.gt lf Double.one = true)) ∧
  ((∃ t, HashTable_new cap lf = inr t) ↔
   ¬ (cap ≤ 0 ∨ Double.le lf Double.zero = true ∨ Double.gt lf Double.one = true)) ∧
  (∀ t, HashTable_new cap lf = inr t →
     buckets_ t = replicate (Z.to_nat cap) [] ∧
     capacity t = cap ∧
     size t = 0 ∧
     load_factor t = lf).
Proof.
  unfold HashTable_new.
  destruct (Z.leb_spec cap 0) as [Hcap|Hcap].
  { split_and!.
    - split; [by left|by eexists].
    - split; [by intros [? ?]|tauto].
    - intros t [=]. }
  destruct (Double.le lf Double.zero) eqn:Hle; cbv [orb].
  { split_and!.
    - split; [by right; left|by eexists].
    - split; [by intros [? ?]|tauto].
    - intros t [=]. }
  destruct (Double.gt lf Double.one) eqn:Hgt.
  { split_and!.
    - split; [by right; right|by eexists].
    - split; [by intros [? ?]|tauto].
    - intros t [=]. }
  split_and!.
  - split; [by intros [? ?]|]. intros [?|[?|?]]; [lia|discriminate..].
  - split; [|by eexists]. intros _ [?|[?|?]]; [lia|discriminate..].
  - intros t [= <-]. unfold capacity, size, load_factor. cbn [buckets_ num_keys_ load_factor_].
    rewrite length_replicate. split_and!; [reflexivity|lia|reflexivity..].
Qed.

(** C4 (the code departs from it). For a load factor that is a number the
    constructor throws exactly when [capacity <= 0] or the load factor is
    outside (0, 1], and otherwise gives the table of [capacity] empty
    buckets and size 0.  A NaN is outside (0, 1] too, but it passes both
    tests of the constructor: with any positive capacity the constructor
    returns a table, whose load factor is the NaN. *)
Theorem HashTable_new_accepts_nan (cap : Z) (lf : double) :
  (Double.is_nan lf = false →
     ((∃ what, HashTable_new cap lf = inl (logic_error what)) ↔
      (cap ≤ 0 ∨ in_unit_interval lf = false)) ∧
     (∀ t, HashTable_new cap lf = inr t →
        buckets_ t = replicate (Z.to_nat cap) [] ∧ capacity t = cap ∧ size t = 0)) ∧
  (0 < cap →
     in_unit_interval S754_nan = false ∧
     ∃ t, HashTable_new cap S754_nan = inr t ∧
          capacity t = cap ∧ size t = 0 ∧ load_factor t = S754_nan).
Proof.
  split.
  - intros Hnum. pose proof (rejected_iff_outside lf Hnum) as Hout.
    fold (in_unit_interval lf) in Hout.
    destruct (HashTable_new_spec cap lf) as (Hthrow & _ & Hbuilt).
    split.
    + rewrite Hthrow.
      destruct (Double.le lf Double.zero), (Double.gt lf Double.one),
        (in_unit_interval lf); cbv [orb negb] in Hout;
        first [discriminate Hout|tauto|intuition discriminate].
    + intros t Ht. destruct (Hbuilt t Ht) as (? & ? & ? & _). done.
  - intros Hcap. split; [reflexivity|].
    unfold HashTable_new. rewrite (proj2 (Z.leb_gt cap 0) Hcap).
    eexists. split; [reflexivity|].
    unfold capacity, size, load_factor. cbn [buckets_ num_keys_ load_factor_].
    rewrite length_replicate. split_and!; [lia|reflexivity..].
Qed.

(** ** The properties on the examples *)

Lemma Remove_keeps_size_witness :
  ∃ t', Remove mod_hash sample_ab 1 = Some (has_value "a", t') ∧
    S (length (entries t')) = length (entries sample_ab) ∧
    Search mod_hash t' 1 = Some nullopt ∧
    size t' = 2.
Proof.
  apply (Remove_keeps_size mod_hash 2 mod_hash_range).
  - lia.
  - apply samples_reachable.
  - reflexivity.
Defined.

Lemma Remove_breaks_size_witness :
  ∃ t', Remove mod_hash sample_a 1 = Some (has_value "a", t') ∧
    reachable mod_hash 2 t' ∧
    size t' = Z.of_nat (length (entries t')) + 1 ∧
    size t' = Z.of_nat (base.size (keys t')) + 1 ∧
    size t' = Z.of_nat (length (values t')) + 1.
Proof.
  apply (Remove_breaks_size mod_hash 2 mod_hash_range).
  - lia.
  - apply samples_reachable.
  - reflexivity.
  - reflexivity.
Defined.

(** C3, as the specification states it, fails: the table of capacity 1
    and load factor 0.25 grows to capacity 2 when it takes its first key,
    and 1 / 2 is not below 0.25. *)
Lemma Put_restores_threshold_fails : ¬ Put_restores_threshold mod_hash 2.
Proof.
  intros H.
  assert (under_threshold sample_over = true) as Habs.
  { apply (H sample_tiny 7 "a"%string).
    - apply samples_reachable.
    - reflexivity.
    - reflexivity. }
  vm_compute in Habs. discriminate Habs.
Qed.

Lemma Put_new_key_threshold_witness :
  ∃ t', Put mod_hash 2 sample_tiny 7 "a" = Some t' ∧
    size t' = size sample_tiny + 1 ∧
    ((over_threshold t' = false ∧ capacity t' = capacity sample_tiny) ∨
     (threshold_reached (size sample_tiny + 1) (length (buckets_ sample_tiny))
        (load_factor sample_tiny) = true ∧
      capacity t' = capacity sample_tiny * 2)).
Proof.
  apply (Put_new_key_threshold mod_hash 2 mod_hash_range).
  - lia.
  - apply samples_reachable.
  - unfold size, INT_MAX. simpl. lia.
  - reflexivity.
Defined.

Lemma Put_Search_witness :
  ∃ t', Put mod_hash 2 sample_small 6 "b" = Some t' ∧
    Search mod_hash t' 6 = Some (has_value "b"%string).
Proof.
  apply (Put_Search mod_hash 2 mod_hash_range).
  - lia.
  - apply samples_reachable.
Defined.

Lemma Put_overwrites_witness :
  ∃ t', Put mod_hash 2 sample_over 7 "b" = Some t' ∧
    size t' = size sample_over ∧
    capacity t' = capacity sample_over ∧
    (λ b : Bucket, b.*1) <$> buckets_ t' = (λ b : Bucket, b.*1) <$> buckets_ sample_over ∧
    Search mod_hash t' 7 = Some (has_value "b"%string).
Proof.
  apply (Put_overwrites mod_hash 2 sample_over 7 "b"%string "a"%string).
  reflexivity.
Defined.

Lemma Put_resizes_witness :
  ∃ t', Put mod_hash 2 sample_small 6 "b" = Some t' ∧
    capacity t' = capacity sample_small * 2 ∧
    capacity sample_small < capacity t' ∧
    (∀ kv, kv ∈ entries sample_small →
       ∃ b, at_index (buckets_ t') (mod_hash kv.1 (capacity t')) = Some b ∧ kv ∈ b) ∧
    placed mod_hash (buckets_ t') ∧
    (∀ key' v', Search mod_hash sample_small key' = Some (has_value v') →
                Search mod_hash t' key' = Some (has_value v')).
Proof.
  apply (Put_resizes mod_hash 2 mod_hash_range).
  - lia.
  - apply samples_reachable.
  - reflexivity.
  - vm_compute. reflexivity.
Defined.

Lemma absent_key_untouched_witness :
  Search mod_hash sample_ab 42 = Some nullopt ∧
  Remove mod_hash sample_ab 42 = Some (nullopt, sample_ab).
Proof.
  apply (absent_key_untouched mod_hash mod_hash_range sample_ab 42).
  - reflexivity.
  - apply (bool_decide_unpack _). vm_compute. exact I.
Defined.

Lemma capacity_grows_by_steps_witness :
  capacity sample_grown = capacity sample_small ∨
  capacity sample_grown = capacity sample_small * 2.
Proof.
  assert (1 < 2) as Hgrowth by lia.
  apply (proj1 (capacity_grows_by_steps mod_hash 2 Hgrowth) sample_small 6 "b"%string).
  reflexivity.
Defined.

Lemma Search_other_key_witness :
  ∃ found, Search mod_hash sample_ab 2 = Some found ∧
    (∃ t', Put mod_hash 2 sample_ab 1 "c" = Some t' ∧
           Search mod_hash t' 2 = Some found) ∧
    (∃ r t', Remove mod_hash sample_ab 1 = Some (r, t') ∧
             Search mod_hash t' 2 = Some found).
Proof.
  apply (Search_other_key mod_hash 2 mod_hash_range).
  - lia.
  - apply samples_reachable.
  - lia.
Defined.

(** ** The further properties on the examples *)

Lemma sample_removed_reachable : reachable mod_hash 2 sample_removed.
Proof.
  apply (table_of_reachable 10 half [call_Put 1 "a"; call_Remove 1]).
  by vm_compute.
Qed.

Lemma calls_defined_witness :
  0 ≤ hash mod_hash sample_ab 42 < capacity sample_ab ∧
  is_Some (Search mod_hash sample_ab 42) ∧
  is_Some (ContainsKey mod_hash sample_ab 42) ∧
  is_Some (Put mod_hash 2 sample_ab 42 "z") ∧
  is_Some (Remove mod_hash sample_ab 42).
Proof.
  apply (calls_defined mod_hash 2 mod_hash_range).
  - lia.
  - apply samples_reachable.
Defined.

Lemma reachable_well_formed_witness :
  0 < capacity sample_grown ∧
  placed mod_hash (buckets_ sample_grown) ∧
  NoDup (entries sample_grown).*1.
Proof.
  apply (reachable_well_formed mod_hash 2 mod_hash_range).
  - lia.
  - apply samples_reachable.
Defined.

Lemma Search_finds_entries_witness :
  Search mod_hash sample_ab 1 = Some (has_value "a"%string) ↔
  (1, "a"%string) ∈ entries sample_ab.
Proof.
  apply (Search_finds_entries mod_hash 2 mod_hash_range).
  - lia.
  - apply samples_reachable.
Defined.




Lemma Put_new_values_witness :
  ∃ t', Put mod_hash 2 sample_small 6 "b" = Some t' ∧
    entries t' ≡ₚ (6, "b"%string) :: entries sample_small ∧
    values t' ≡ₚ "b"%string :: values sample_small.
Proof.
  apply (Put_new_values mod_hash 2 mod_hash_range).
  - lia.
  - apply samples_reachable.
  - apply (bool_decide_unpack _). vm_compute. exact I.
Defined.

Lemma keys_values_count_witness :
  base.size (keys sample_removed) = length (values sample_removed) ∧
  Z.of_nat (length (values sample_removed)) ≤ size sample_removed.
Proof.
  apply (keys_values_count mod_hash 2 mod_hash_range).
  - lia.
  - apply sample_removed_reachable.
  - unfold size, INT_MAX. simpl. lia.
Defined.

Lemma built_size_witness :
  size sample_ab = Z.of_nat (base.size (keys sample_ab)) ∧
  size sample_ab = Z.of_nat (length (values sample_ab)).
Proof.
  apply (built_size mod_hash 2 mod_hash_range).
  - lia.
  - apply (built_Put mod_hash 2 sample_a 2 "b"%string); [|reflexivity].
    apply (built_Put mod_hash 2 sample_empty 1 "a"%string); [|reflexivity].
    apply (built_new mod_hash 2 10 half). reflexivity.
Defined.

Lemma size_never_decreases_witness :
  size sample_a ≤ size sample_removed ∧
  load_factor sample_removed = load_factor sample_a.
Proof.
  assert (1 < 2) as Hgrowth by lia.
  apply (size_never_decreases mod_hash 2 Hgrowth).
  - eapply rtc_l; [|apply rtc_refl].
    apply (step_Remove mod_hash 2 sample_a 1 (has_value "a"%string)). reflexivity.
  - unfold size, INT_MIN. simpl. lia.
  - unfold size, INT_MAX. simpl. lia.
Defined.

Lemma capacity_power_witness :
  ∃ k : nat, capacity sample_grown = capacity sample_small * 2 ^ Z.of_nat k.
Proof.
  assert (1 < 2) as Hgrowth by lia.
  apply (capacity_power mod_hash 2 Hgrowth).
  eapply rtc_l; [|apply rtc_refl].
  apply (step_Put mod_hash 2 sample_small 6 "b"%string). reflexivity.
Defined.

Lemma empty_has_no_keys_witness :
  keys sample_empty = ∅ ∧ values sample_empty = [] ∧
  ∀ key, Search mod_hash sample_empty key = Some nullopt.
Proof.
  apply (empty_has_no_keys mod_hash 2 mod_hash_range).
  - lia.
  - apply samples_reachable.
  - unfold size, INT_MAX. simpl. lia.
  - reflexivity.
Defined.

Lemma Remove_twice_witness :
  ∃ r t', Remove mod_hash sample_ab 1 = Some (r, t') ∧
          Remove mod_hash t' 1 = Some (nullopt, t').
Proof.
  apply (Remove_twice mod_hash 2 mod_hash_range).
  - lia.
  - apply samples_reachable.
Defined.

Lemma Put_then_Remove_witness :
  ∃ t1 t2, Put mod_hash 2 sample_a 2 "b" = Some t1 ∧
    Remove mod_hash t1 2 = Some (has_value "b"%string, t2) ∧
    (∀ key', Search mod_hash t2 key' = Search mod_hash sample_a key') ∧
    keys t2 = keys sample_a ∧
    size t2 = size sample_a + 1.
Proof.
  apply (Put_then_Remove mod_hash 2 mod_hash_range).
  - lia.
  - apply samples_reachable.
  - unfold size, INT_MAX. simpl. lia.
  - apply (bool_decide_unpack _). vm_compute. exact I.
Defined.

Lemma Put_same_value_witness :
  Put mod_hash 2 sample_ab 1 "a" = Some sample_ab.
Proof.
  apply (Put_same_value mod_hash 2 sample_ab 1 "a"%string). reflexivity.
Defined.


Lemma fresh_table_witness :
  empty sample_empty = true ∧ keys sample_empty = ∅ ∧ values sample_empty = [] ∧
  ∀ key, Search mod_hash sample_empty key = Some nullopt ∧
         ContainsKey mod_hash sample_empty key = Some false ∧
         Remove mod_hash sample_empty key = Some (nullopt, sample_empty).
Proof.
  apply (fresh_table mod_hash 2 mod_hash_range) with 10 half.
  - lia.
  - reflexivity.
Defined.

Lemma nan_load_factor_never_grows_witness :
  capacity sample_nan_two = capacity sample_nan.
Proof.
  assert (1 < 2) as Hgrowth by lia.
  apply (proj2 (nan_load_factor_never_grows mod_hash 2 Hgrowth) sample_nan sample_nan_two).
  - reflexivity.
  - eapply rtc_l; [apply (step_Put mod_hash 2 sample_nan 7 "a"%string); reflexivity|].
    eapply rtc_l; [|apply rtc_refl].
    eapply (step_Put mod_hash 2 _ 8 "b"%string). reflexivity.
Defined.

Lemma values_Search_witness :
  "b"%string ∈ values sample_ab ↔
  ∃ key, Search mod_hash sample_ab key = Some (has_value "b"%string).
Proof.
  apply (values_Search mod_hash 2 mod_hash_range).
  - lia.
  - apply samples_reachable.
Defined.

Lemma Put_grows_only_at_threshold_witness :
  Search mod_hash sample_small 6 = Some nullopt ∧
  threshold_reached (size sample_small + 1) (length (buckets_ sample_small))
    (load_factor sample_small) = true ∧
  capacity sample_grown = capacity sample_small * 2.
Proof.
  assert (1 < 2) as Hgrowth by lia.
  apply (Put_grows_only_at_threshold mod_hash 2 Hgrowth sample_small 6 "b"%string).
  - reflexivity.
  - unfold capacity. simpl. lia.
Defined.

Lemma HashTable_new_accepts_nan_witness :
  in_unit_interval S754_nan = false ∧
  ∃ t, HashTable_new 5 S754_nan = inr t ∧
       capacity t = 5 ∧ size t = 0 ∧ load_factor t = S754_nan.
Proof.
  apply (proj2 (HashTable_new_accepts_nan 5 S754_nan)). lia.
Defined.
